(** * cyclonus: the [generate] command and the test-case interpreter

    Part 1 ([Module Cli]) embeds [pkg/cli/generate.go]: the flag record,
    the command's defaults, and [RunGenerateCommand] as a computation in a
    small state-and-halt monad over a call trace.  The packages the command
    calls into ([generator], [kube], [probe], [connectivity], [utils]) are
    an interface record, [Packages].

    Part 2 ([Module Connectivity]) holds the probe runner, the truth table
    and the interpreter's step machine; they live in [pkg/connectivity]
    and are modelled from the specification.  [Module Demo] and
    [Module DemoCluster] are small instances to run the definitions on;
    [CliFacts], [ConnectivityFacts] and [CliMore] hold the proofs. *)

From Stdlib Require Import ZArith.
From stdpp Require Import base option list strings pretty gmap.

Open Scope Z_scope.

Module Cli.

(** Go's [error] interface value; [None] is [nil]. *)
Definition error := string.

(** [type GenerateArgs struct] (generate.go, lines 15 to 34).  Go's [int]
    is kept as [Z]: the command does no arithmetic on these fields. *)
Record GenerateArgs := mkGenerateArgs {
  AllowDNS : bool;
  Noisy : bool;
  IgnoreLoopback : bool;
  PerturbationWaitSeconds : Z;
  PodCreationTimeoutSeconds : Z;
  Retries : Z;
  BatchJobs : bool;
  Context : string;
  ServerPorts : list Z;
  ServerProtocols : list string;
  ServerNamespaces : list string;
  ServerPods : list string;
  CleanupNamespaces : bool;
  Include : list string;
  Exclude : list string;
  DestinationType : string;
  Mock : bool;
  DryRun : bool
}.

(** [connectivity.InterpreterConfig], with the six fields the struct
    literal of lines 98 to 105 names.  Three of them are named as fields of
    [GenerateArgs] are, and carry the prefix [Cfg] here. *)
Record InterpreterConfig := mkInterpreterConfig {
  ResetClusterBeforeTestCase : bool;
  KubeProbeRetries : Z;
  CfgPerturbationWaitSeconds : Z;
  VerifyClusterStateBeforeTestCase : bool;
  CfgBatchJobs : bool;
  CfgIgnoreLoopback : bool
}.

(** [connectivity.Printer], as built at lines 107 to 110: its fields
    [Noisy] and [IgnoreLoopback]. *)
Record Printer := mkPrinter {
  PrinterNoisy : bool;
  PrinterIgnoreLoopback : bool
}.

(** The struct literal of lines 98 to 105. *)
Definition newInterpreterConfig (args : GenerateArgs) : InterpreterConfig :=
  {| ResetClusterBeforeTestCase := true;
     KubeProbeRetries := Retries args;
     CfgPerturbationWaitSeconds := PerturbationWaitSeconds args;
     VerifyClusterStateBeforeTestCase := true;
     CfgBatchJobs := BatchJobs args;
     CfgIgnoreLoopback := IgnoreLoopback args |}.

(** The struct literal of lines 107 to 110. *)
Definition newPrinter (args : GenerateArgs) : Printer :=
  {| PrinterNoisy := Noisy args;
     PrinterIgnoreLoopback := IgnoreLoopback args |}.

(** ** Flags

    One constructor per [command.Flags().XVar] registration of
    [SetupGenerateCommand] (lines 49 to 69), carrying the value the flag
    library has parsed.  [IntVar] accepts every integer, also a negative
    one; nothing in this file validates a value. *)
Inductive Flag :=
| FlagServerProtocol (v : list string)
| FlagServerPort (v : list Z)
| FlagNamespace (v : list string)
| FlagPod (v : list string)
| FlagBatchJobs (v : bool)
| FlagRetries (v : Z)
| FlagAllowDNS (v : bool)
| FlagNoisy (v : bool)
| FlagIgnoreLoopback (v : bool)
| FlagPerturbationWaitSeconds (v : Z)
| FlagPodCreationTimeoutSeconds (v : Z)
| FlagContext (v : string)
| FlagCleanupNamespaces (v : bool)
| FlagDestinationType (v : string)
| FlagInclude (v : list string)
| FlagExclude (v : list string)
| FlagMock (v : bool)
| FlagDryRun (v : bool).

Definition setFlag (a : GenerateArgs) (f : Flag) : GenerateArgs :=
  let '(mkGenerateArgs dns noisy loop wait podt retr batch ctx ports protos
          nss pods clean incl excl dest mock dry) := a in
  match f with
  | FlagServerProtocol v =>
      mkGenerateArgs dns noisy loop wait podt retr batch ctx ports v nss pods clean incl excl dest mock dry
  | FlagServerPort v =>
      mkGenerateArgs dns noisy loop wait podt retr batch ctx v protos nss pods clean incl excl dest mock dry
  | FlagNamespace v =>
      mkGenerateArgs dns noisy loop wait podt retr batch ctx ports protos v pods clean incl excl dest mock dry
  | FlagPod v =>
      mkGenerateArgs dns noisy loop wait podt retr batch ctx ports protos nss v clean incl excl dest mock dry
  | FlagBatchJobs v =>
      mkGenerateArgs dns noisy loop wait podt retr v ctx ports protos nss pods clean incl excl dest mock dry
  | FlagRetries v =>
      mkGenerateArgs dns noisy loop wait podt v batch ctx ports protos nss pods clean incl excl dest mock dry
  | FlagAllowDNS v =>
      mkGenerateArgs v noisy loop wait podt retr batch ctx ports protos nss pods clean incl excl dest mock dry
  | FlagNoisy v =>
      mkGenerateArgs dns v loop wait podt retr batch ctx ports protos nss pods clean incl excl dest mock dry
  | FlagIgnoreLoopback v =>
      mkGenerateArgs dns noisy v wait podt retr batch ctx ports protos nss pods clean incl excl dest mock dry
  | FlagPerturbationWaitSeconds v =>
      mkGenerateArgs dns noisy loop v podt retr batch ctx ports protos nss pods clean incl excl dest mock dry
  | FlagPodCreationTimeoutSeconds v =>
      mkGenerateArgs dns noisy loop wait v retr batch ctx ports protos nss pods clean incl excl dest mock dry
  | FlagContext v =>
      mkGenerateArgs dns noisy loop wait podt retr batch v ports protos nss pods clean incl excl dest mock dry
  | FlagCleanupNamespaces v =>
      mkGenerateArgs dns noisy loop wait podt retr batch ctx ports protos nss pods v incl excl dest mock dry
  | FlagDestinationType v =>
      mkGenerateArgs dns noisy loop wait podt retr batch ctx ports protos nss pods clean incl excl v mock dry
  | FlagInclude v =>
      mkGenerateArgs dns noisy loop wait podt retr batch ctx ports protos nss pods clean v excl dest mock dry
  | FlagExclude v =>
      mkGenerateArgs dns noisy loop wait podt retr batch ctx ports protos nss pods clean incl v dest mock dry
  | FlagMock v =>
      mkGenerateArgs dns noisy loop wait podt retr batch ctx ports protos nss pods clean incl excl dest v dry
  | FlagDryRun v =>
      mkGenerateArgs dns noisy loop wait podt retr batch ctx ports protos nss pods clean incl excl dest mock v
  end.

(** The arguments a command line yields: the registered defaults, then each
    given flag in turn. *)
Definition parseFlags (defaults : GenerateArgs) (fs : list Flag) : GenerateArgs :=
  foldl setFlag defaults fs.


(** ** Types and packages outside this file *)

(** Types declared in packages that are not part of this file; the command
    only passes their values along. *)
Record Types := {
  World : Type;      (** what lies behind the interfaces: the cluster, the mock's memory *)
  KubeClient : Type; (** [*kube.Kubernetes], a client of a real cluster *)
  Resources : Type;  (** [*probe.Resources] *)
  Protocol : Type;   (** [v1.Protocol] *)
  ProbeMode : Type;  (** [generator.ProbeMode] *)
  ProbeSpec : Type;  (** the fields of [generator.ProbeConfig] other than [Mode] *)
  Actions : Type;    (** the fields of [generator.TestStep] other than [Probe] *)
  Result : Type      (** [*connectivity.Result] *)
}.

(** The two ways the process stops before [RunGenerateCommand] returns. *)
Inductive Halt :=
| Fatal (err : error)  (** [utils.DoOrDie] on a non-nil error *)
| NilPointer.          (** a write through a nil [Probe] *)

Inductive Res (A : Type) :=
| Ok (a : A)
| Halted (h : Halt).
Arguments Ok {A} a.
Arguments Halted {A} h.

(** Addresses of [ProbeConfig] objects. *)
Abbreviation loc := positive.

Section Run.

Variable T : Types.

(** [generator.ProbeConfig]: only [Mode] is touched by this file. *)
Record ProbeConfig := mkProbeConfig {
  Mode : ProbeMode T;
  Spec : ProbeSpec T
}.

(** [generator.TestStep].  Line 136, [step.Probe.Mode = mode], assigns
    through the loop variable [step]: it has an effect because [Steps]
    holds pointers and [Probe] is one.  [Probe] is therefore an address into
    a store of [ProbeConfig] objects, which several steps may share. *)
Record TestStep := mkTestStep {
  Probe : loc;
  StepActions : Actions T
}.

(** [generator.TestCase]; [Tags.Keys()] is [elements]. *)
Record TestCase := mkTestCase {
  Description : string;
  Tags : gset string;
  Steps : list TestStep
}.

(** A test case as a callee reads it at the time of the call: every [Probe]
    pointer followed ([None] is a nil or dangling pointer). *)
Record StepView := mkStepView {
  ViewProbe : option ProbeConfig;
  ViewActions : Actions T
}.

Record TestCaseView := mkTestCaseView {
  ViewDescription : string;
  ViewTags : gset string;
  ViewSteps : list StepView
}.

Definition derefStep (h : gmap loc ProbeConfig) (st : TestStep) : StepView :=
  {| ViewProbe := h !! Probe st; ViewActions := StepActions st |}.

Definition deref (h : gmap loc ProbeConfig) (tc : TestCase) : TestCaseView :=
  {| ViewDescription := Description tc;
     ViewTags := Tags tc;
     ViewSteps := derefStep h <$> Steps tc |}.

(** [kube.IKubernetes] and its two implementations used at lines 82 to 91. *)
Inductive Kubernetes :=
| MockKubernetes                       (** [kube.NewMockKubernetes(1.0)] *)
| ClusterKubernetes (c : KubeClient T). (** [kube.NewKubernetesForContext(ctx)] *)

(** [*connectivity.Interpreter], as [NewInterpreter] is handed it. *)
Record Interpreter := mkInterpreter {
  InterpKubernetes : Kubernetes;
  InterpResources : Resources T;
  Config : InterpreterConfig
}.

(** [*probe.Pod]: only [IP] is read (line 115). *)
Record Pod := mkPod { IP : string }.

(** The functions of other packages that [RunGenerateCommand] calls, by
    their visible results.  A Go pair [(x, err)] is a sum; a call that
    reaches the cluster or the mock's memory passes [World] along.
    [CountTestCasesByTag] returns a Go map, which line 119 ranges over in
    an unspecified order: the list is that order. *)
Record Packages := {
  TagMultiPeer : string;
  TagUpstreamE2E : string;
  TagExample : string;
  ValidateTags : list string → option error;
  GenerateTestCases :
    bool → string → list string → list string → list string →
    list TestCase * gmap loc ProbeConfig;
  CountTestCasesByTag : list TestCase → list (string * Z);
  ParseProbeMode : string → ProbeMode T + error;
  NewKubernetesForContext : string → World T → (KubeClient T + error) * World T;
  ServerVersion : KubeClient T → World T → (string + error) * World T;
  DeleteNamespace : Kubernetes → string → World T → option error * World T;
  parseProtocols : list string → list (Protocol T);
  NewDefaultResources :
    Kubernetes → list string → list string → list Z → list (Protocol T) →
    list string → Z → bool → World T → (Resources T + error) * World T;
  GetPod : Resources T → string → string → Pod + error;
  ExecuteTestCase : Interpreter → TestCaseView → World T → Result T * World T;
  Err : Result T → option error
}.

(** ** The call trace *)

Inductive Event :=
| Stdout (text : string)
| LogInfo (msg : string)
| LogWarn (msg : string)
| CallRunVersionCommand
| CallNewMockKubernetes
| CallNewKubernetesForContext (ctx : string)
| CallServerVersion
| CallNewDefaultResources (k : Kubernetes) (namespaces pods : list string)
    (ports : list Z) (timeout : Z) (batch : bool)
| CallExecuteTestCase (i : Interpreter) (tc : TestCaseView) (r : Result T)
| CallPrintTestCaseResult (p : Printer) (r : Result T)
| CallPrintSummary (p : Printer)
| CallDeleteNamespace (k : Kubernetes) (ns : string).

(** ** The monad: state, halting, and the calls made

    A computation reads and writes the state, may stop the process, and
    yields the events it caused, in order. *)

Record State := mkState {
  world : World T;
  store : gmap loc ProbeConfig
}.

Definition M (A : Type) : Type := State → Res A * State * list Event.

Definition ret {A} (a : A) : M A := λ s, (Ok a, s, []).

Definition bind {A B} (m : M A) (k : A → M B) : M B :=
  λ s, match m s with
       | (Ok a, s', t) => let '(r, s'', t') := k a s' in (r, s'', t ++ t')
       | (Halted h, s', t) => (Halted h, s', t)
       end.

Definition halt {A} (h : Halt) : M A := λ s, (Halted h, s, []).

Definition emit (e : Event) : M unit := λ s, (Ok tt, s, [e]).

Definition callWorld {A} (f : World T → A * World T) : M A :=
  λ s, let '(a, w) := f (world s) in (Ok a, mkState w (store s), []).

Definition getStore : M (gmap loc ProbeConfig) := λ s, (Ok (store s), s, []).

Definition setStore (h : gmap loc ProbeConfig) : M unit :=
  λ s, (Ok tt, mkState (world s) h, []).

Global Instance M_ret : MRet M := @ret.
Global Instance M_bind : MBind M := λ A B k m, bind m k.

(** Indexed [for i, x := range l]. *)
Fixpoint forRange {A} (body : nat → A → M unit) (i : nat) (l : list A) : M unit :=
  match l with
  | [] => ret tt
  | x :: l' => body i x;; forRange body (S i) l'
  end.

Definition nl : string := String (Ascii.ascii_of_nat 10) EmptyString.

Definition printf (text : string) : M unit := emit (Stdout text).

(** ** [utils.DoOrDie]

    Modelled from the spec: [utils.DoOrDie] is declared in [pkg/utils], not
    in this file.  It is the call this file wraps around every error it does
    not handle; as its name says, and as the run is said to abort when the
    destination type does not parse (line 133), it returns on a nil error
    and ends the process on any other. *)
Definition DoOrDie (err : option error) : M unit :=
  match err with
  | None => ret tt
  | Some e => halt (Fatal e)
  end.

(** [x, err := f(...); utils.DoOrDie(err)]. *)
Definition orDie {A} (r : A + error) : M A :=
  match r with
  | inl a => ret a
  | inr e => halt (Fatal e)
  end.

Variable P : Packages.

(** ** [RunGenerateCommand], lines 74 to 162 *)

(** Lines 81 to 91. *)
Definition newKubernetes (args : GenerateArgs) : M Kubernetes :=
  if Mock args || DryRun args then
    emit CallNewMockKubernetes;;
    ret MockKubernetes
  else
    emit (CallNewKubernetesForContext (Context args));;
    r ← callWorld (NewKubernetesForContext P (Context args));
    kubeClient ← orDie r;
    emit CallServerVersion;;
    r ← callWorld (ServerVersion P kubeClient);
    info ← orDie r;
    printf ("Kubernetes server version: " +:+ nl +:+ info +:+ nl);;
    ret (ClusterKubernetes kubeClient).

(** Lines 118 to 125. *)
Definition printTestCases (testCases : list TestCase) : M unit :=
  printf ("test cases to run by tag:" +:+ nl);;
  forRange (λ _ '(tag, count),
      printf ("- " +:+ tag +:+ ": " +:+ pretty count +:+ nl))
    0%nat (CountTestCasesByTag P testCases);;
  printf ("testing " +:+ pretty (Z.of_nat (length testCases)) +:+ " cases" +:+ nl +:+ nl);;
  forRange (λ i testCase,
      printf ("test #" +:+ pretty (Z.of_nat i + 1) +:+ ": " +:+ Description testCase
              +:+ nl +:+ " - tags: "
              +:+ String.concat ", " (elements (Tags testCase)) +:+ nl))
    0%nat testCases.

(** What the rest of the function uses of lines 75 to 125. *)
Record Setup := mkSetup {
  kubernetes : Kubernetes;
  interpreter : Interpreter;
  printer : Printer;
  testCases : list TestCase
}.

(** Lines 75 to 125: everything up to the dry-run test. *)
Definition setup (args : GenerateArgs) : M Setup :=
  emit CallRunVersionCommand;;
  DoOrDie (ValidateTags P (Include args ++ Exclude args));;
  let externalIPs : list string := [] in
  kubernetes ← newKubernetes args;
  let serverProtocols := parseProtocols P (ServerProtocols args) in
  emit (CallNewDefaultResources kubernetes (ServerNamespaces args) (ServerPods args)
          (ServerPorts args) (PodCreationTimeoutSeconds args) (BatchJobs args));;
  r ← callWorld (NewDefaultResources P kubernetes (ServerNamespaces args)
                   (ServerPods args) (ServerPorts args) serverProtocols externalIPs
                   (PodCreationTimeoutSeconds args) (BatchJobs args));
  resources ← orDie r;
  let interpreterConfig := newInterpreterConfig args in
  let interpreter := mkInterpreter kubernetes resources interpreterConfig in
  let printer := newPrinter args in
  zcPod ← orDie (GetPod P resources "z" "c");
  let '(testCases, objects) :=
    GenerateTestCases P (AllowDNS args) (IP zcPod) (ServerNamespaces args)
      (Include args) (Exclude args) in
  setStore objects;;
  printTestCases testCases;;
  ret (mkSetup kubernetes interpreter printer testCases).

(** Line 136, [step.Probe.Mode = mode]. *)
Definition setMode (mode : ProbeMode T) (step : TestStep) : M unit :=
  h ← getStore;
  match h !! Probe step with
  | Some pc => setStore (<[Probe step := mkProbeConfig mode (Spec pc)]> h)
  | None => halt NilPointer
  end.

(** Lines 131 to 139. *)
Definition overrideDestinationType (args : GenerateArgs) (testCases : list TestCase)
    : M unit :=
  if decide (DestinationType args = "") then ret tt
  else
    mode ← orDie (ParseProbeMode P (DestinationType args));
    forRange (λ _ testCase,
        forRange (λ _ step, setMode mode step) 0%nat (Steps testCase))
      0%nat testCases.

(** Line 144: the callee reads the test case through the store. *)
Definition executeTestCase (interpreter : Interpreter) (testCase : TestCase)
    : M (Result T) :=
  h ← getStore;
  result ← callWorld (ExecuteTestCase P interpreter (deref h testCase));
  emit (CallExecuteTestCase interpreter (deref h testCase) result);;
  ret result.

(** The body of the loop of lines 141 to 149. *)
Definition runTestCase (interpreter : Interpreter) (printer : Printer)
    (i : nat) (testCase : TestCase) : M unit :=
  printf ("starting test case #" +:+ pretty (Z.of_nat i + 1) +:+ nl);;
  result ← executeTestCase interpreter testCase;
  DoOrDie (Err P result);;
  emit (CallPrintTestCaseResult printer result);;
  printf ("finished policy #" +:+ pretty (Z.of_nat i + 1) +:+ nl).

(** The body of the loop of lines 154 to 160. *)
Definition cleanupNamespace (kubernetes : Kubernetes) (ns : string) : M unit :=
  emit (LogInfo ("cleaning up namespace " +:+ ns));;
  emit (CallDeleteNamespace kubernetes ns);;
  err ← callWorld (DeleteNamespace P kubernetes ns);
  match err with
  | Some e => emit (LogWarn e)
  | None => ret tt
  end.

(** Lines 131 to 161: what follows the dry-run test. *)
Definition execute (args : GenerateArgs) (c : Setup) : M unit :=
  overrideDestinationType args (testCases c);;
  forRange (runTestCase (interpreter c) (printer c)) 0%nat (testCases c);;
  emit (CallPrintSummary (printer c));;
  if CleanupNamespaces args then
    forRange (λ _ ns, cleanupNamespace (kubernetes c) ns) 0%nat (ServerNamespaces args)
  else ret tt.

Definition RunGenerateCommand (args : GenerateArgs) : M unit :=
  c ← setup args;
  if DryRun args then ret tt
  else execute args c.

(** The flag defaults registered at lines 49 to 69: the arguments of a
    command line with no flag. *)
Definition SetupGenerateCommand : GenerateArgs :=
  {| ServerProtocols := ["TCP"; "UDP"; "SCTP"];
     ServerPorts := [80; 81];
     ServerNamespaces := ["x"; "y"; "z"];
     ServerPods := ["a"; "b"; "c"];
     BatchJobs := false;
     Retries := 1;
     AllowDNS := true;
     Noisy := false;
     IgnoreLoopback := false;
     PerturbationWaitSeconds := 5;
     PodCreationTimeoutSeconds := 60;
     Context := "";
     CleanupNamespaces := false;
     DestinationType := "";
     Include := [];
     Exclude := [TagMultiPeer P; TagUpstreamE2E P; TagExample P];
     Mock := false;
     DryRun := false |}.

(** [Run] of the command (lines 44 to 46) on a parsed command line. *)
Definition Run (flags : list Flag) : M unit :=
  RunGenerateCommand (parseFlags SetupGenerateCommand flags).

(** ** Reading a trace *)

(** The test cases handed to [ExecuteTestCase], in call order. *)
Fixpoint executed (t : list Event) : list TestCaseView :=
  match t with
  | [] => []
  | CallExecuteTestCase _ v _ :: t' => v :: executed t'
  | _ :: t' => executed t'
  end.

(** What lines 118 to 125 write, as a function of the test cases. *)
Fixpoint tagCountLines (counts : list (string * Z)) : list Event :=
  match counts with
  | [] => []
  | (tag, count) :: rest =>
      Stdout ("- " +:+ tag +:+ ": " +:+ pretty count +:+ nl) :: tagCountLines rest
  end.

Fixpoint testCaseLines (i : nat) (testCases : list TestCase) : list Event :=
  match testCases with
  | [] => []
  | testCase :: rest =>
      Stdout ("test #" +:+ pretty (Z.of_nat i + 1) +:+ ": " +:+ Description testCase
              +:+ nl +:+ " - tags: "
              +:+ String.concat ", " (elements (Tags testCase)) +:+ nl)
        :: testCaseLines (S i) rest
  end.

Definition testCaseListing (testCases : list TestCase) : list Event :=
  Stdout ("test cases to run by tag:" +:+ nl)
    :: tagCountLines (CountTestCasesByTag P testCases)
    ++ Stdout ("testing " +:+ pretty (Z.of_nat (length testCases)) +:+ " cases" +:+ nl +:+ nl)
    :: testCaseLines 0 testCases.

(** Every [Probe] of every step points at an object. *)
Definition allocated (h : gmap loc ProbeConfig) (testCases : list TestCase) : Prop :=
  Forall (λ tc, Forall (λ st, is_Some (h !! Probe st)) (Steps tc)) testCases.

(** The step relation of the loop of lines 141 to 149, from test case
    number [i] on, over the test cases as the interpreter reads them: one
    test case is started, executed in the world its predecessor left, and
    either printed and finished before the next one starts, or, on a
    terminal error, the last thing the process does. *)
Inductive LoopRun (interp : Interpreter) (pr : Printer)
    : nat → list TestCaseView → World T → Res unit → World T → list Event → Prop :=
| LoopDone i w :
    LoopRun interp pr i [] w (Ok tt) w []
| LoopDie i v vs w res w' e :
    ExecuteTestCase P interp v w = (res, w') →
    Err P res = Some e →
    LoopRun interp pr i (v :: vs) w (Halted (Fatal e)) w'
      [Stdout ("starting test case #" +:+ pretty (Z.of_nat i + 1) +:+ nl);
       CallExecuteTestCase interp v res]
| LoopNext i v vs w res w' r w'' t :
    ExecuteTestCase P interp v w = (res, w') →
    Err P res = None →
    LoopRun interp pr (S i) vs w' r w'' t →
    LoopRun interp pr i (v :: vs) w r w''
      (Stdout ("starting test case #" +:+ pretty (Z.of_nat i + 1) +:+ nl)
       :: CallExecuteTestCase interp v res
       :: CallPrintTestCaseResult pr res
       :: Stdout ("finished policy #" +:+ pretty (Z.of_nat i + 1) +:+ nl)
       :: t).

(** ** Predicates on runs *)

(** Every event of [m], from any state, satisfies [Q]. *)
Definition emitsOnly (Q : Event → Prop) {A} (m : M A) : Prop :=
  ∀ s, Forall Q (m s).2.

(** [m] returns, from any state, and leaves the store as it was. *)
Definition returns {A} (m : M A) : Prop :=
  ∀ s, ∃ a s' t, m s = (Ok a, s', t) ∧ store s' = store s.

(** The object [pc] after [pc.Mode = mode]. *)
Definition withMode (mode : ProbeMode T) (pc : ProbeConfig) : ProbeConfig :=
  mkProbeConfig mode (Spec pc).

(** [h'] is [h] with [mode] written into the objects at [locs], and nothing
    else changed. *)
Definition overwritten (mode : ProbeMode T) (locs : list loc)
    (h h' : gmap loc ProbeConfig) : Prop :=
  ∀ l, h' !! l = if decide (l ∈ locs) then withMode mode <$> h !! l else h !! l.

(** The [Probe] pointers of all steps of all test cases. *)
Definition probes (tcs : list TestCase) : list loc :=
  tc ← tcs; Probe <$> Steps tc.

(** Every step of the test case, as read, has mode [mode]. *)
Definition modesAre (mode : ProbeMode T) (v : TestCaseView) : Prop :=
  Forall (λ sv, Mode <$> ViewProbe sv = Some mode) (ViewSteps v).

(** What the generator yields at line 117, given the pod found at line 112. *)
Definition generated (args : GenerateArgs) (zcPod : Pod)
    : list TestCase * gmap loc ProbeConfig :=
  GenerateTestCases P (AllowDNS args) (IP zcPod) (ServerNamespaces args)
    (Include args) (Exclude args).

(** An execution, if [e] is one, is by an interpreter configured with [cfg]. *)
Definition executesWith (cfg : InterpreterConfig) (e : Event) : Prop :=
  match e with
  | CallExecuteTestCase i _ _ => Config i = cfg
  | _ => True
  end.

(** An execution, if [e] is one, is under a retry count and a settle
    duration that are not negative. *)
Definition executesNonNegative (e : Event) : Prop :=
  match e with
  | CallExecuteTestCase i _ _ =>
      0 ≤ KubeProbeRetries (Config i) ∧ 0 ≤ CfgPerturbationWaitSeconds (Config i)
  | _ => True
  end.

(** The events a dry run may cause: output, and calls on the mock. *)
Definition dryRunEvent (e : Event) : Prop :=
  match e with
  | Stdout _ | CallRunVersionCommand | CallNewMockKubernetes
  | CallNewDefaultResources MockKubernetes _ _ _ _ _ => True
  | _ => False
  end.

(** What a dry run has done when it reaches line 96: the version command,
    the mock of line 82, and the resources of line 95 asked of that mock. *)
Definition dryRunOpening (args : GenerateArgs) : list Event :=
  [CallRunVersionCommand; CallNewMockKubernetes;
   CallNewDefaultResources MockKubernetes (ServerNamespaces args) (ServerPods args)
     (ServerPorts args) (PodCreationTimeoutSeconds args) (BatchJobs args)].

(** The events of lines 151 to 161. *)
Definition closingEvent (e : Event) : Prop :=
  match e with
  | CallPrintSummary _ | LogInfo _ | LogWarn _ | CallDeleteNamespace _ _ => True
  | _ => False
  end.

Definition notExecution (e : Event) : Prop :=
  match e with
  | CallExecuteTestCase _ _ _ => False
  | _ => True
  end.

(** In trace [t] of a run that ended as [r]: an execution that yielded a
    terminal error is the last event and [r] is the halt on that error; any
    other execution is followed by the printing of its result and the
    "finished" line. *)
Fixpoint errorsEndRun (pr : Printer) (r : Res unit) (t : list Event) : Prop :=
  match t with
  | [] => True
  | CallExecuteTestCase _ _ res :: t' =>
      match Err P res with
      | Some e => r = Halted (Fatal e) ∧ t' = []
      | None =>
          (∃ (k : Z) t'', t' = CallPrintTestCaseResult pr res
                         :: Stdout ("finished policy #" +:+ pretty k +:+ nl) :: t'')
          ∧ errorsEndRun pr r t'
      end
  | _ :: t' => errorsEndRun pr r t'
  end.

(** ** Further readings of a trace *)

Definition resultOf (e : Event) : option (Result T) :=
  match e with
  | CallExecuteTestCase _ _ r => Some r
  | _ => None
  end.

Definition printedOf (e : Event) : option (Result T) :=
  match e with
  | CallPrintTestCaseResult _ r => Some r
  | _ => None
  end.

Definition summaryOf (e : Event) : option Printer :=
  match e with
  | CallPrintSummary p => Some p
  | _ => None
  end.

Definition deletedOf (e : Event) : option (Kubernetes * string) :=
  match e with
  | CallDeleteNamespace k ns => Some (k, ns)
  | _ => None
  end.

(** The Results [ExecuteTestCase] returned, in call order. *)
Definition results (t : list Event) : list (Result T) := omap resultOf t.

(** The Results handed to [PrintTestCaseResult], in call order. *)
Definition printed (t : list Event) : list (Result T) := omap printedOf t.

(** The printers [PrintSummary] was called on. *)
Definition summaries (t : list Event) : list Printer := omap summaryOf t.

(** The [DeleteNamespace] calls: backend and namespace, in call order. *)
Definition deleted (t : list Event) : list (Kubernetes * string) := omap deletedOf t.

(** Event [e], if it creates or uses a backend, creates or uses [k]. *)
Definition onBackend (k : Kubernetes) (e : Event) : Prop :=
  match e with
  | CallNewMockKubernetes => k = MockKubernetes
  | CallNewKubernetesForContext _ | CallServerVersion => k ≠ MockKubernetes
  | CallNewDefaultResources k' _ _ _ _ _ => k' = k
  | CallExecuteTestCase i _ _ => InterpKubernetes i = k
  | CallDeleteNamespace k' _ => k' = k
  | _ => True
  end.

(** Event [e], if it is a call on the printer, is on [pr], and the Result
    it prints carries no terminal error. *)
Definition printsWith (pr : Printer) (e : Event) : Prop :=
  match e with
  | CallPrintTestCaseResult p r => p = pr ∧ Err P r = None
  | CallPrintSummary p => p = pr
  | _ => True
  end.

(** Event [e], if it is an execution, is by an interpreter whose resources
    hold the pod "c" of namespace "z". *)
Definition hasPodZC (e : Event) : Prop :=
  match e with
  | CallExecuteTestCase i _ _ => ∃ pod, GetPod P (InterpResources i) "z" "c" = inl pod
  | _ => True
  end.

(** The events of lines 75 to 125. *)
Definition setupEvent (e : Event) : Prop :=
  match e with
  | Stdout _ | CallRunVersionCommand | CallNewMockKubernetes
  | CallNewKubernetesForContext _ | CallServerVersion
  | CallNewDefaultResources _ _ _ _ _ _ => True
  | _ => False
  end.

(** The events of the loop of lines 141 to 149, run by [interp] and [pr]. *)
Definition loopEvent (interp : Interpreter) (pr : Printer) (e : Event) : Prop :=
  match e with
  | Stdout _ => True
  | CallExecuteTestCase i _ _ => i = interp
  | CallPrintTestCaseResult p r => p = pr ∧ Err P r = None
  | _ => False
  end.

(** The events of the loop of lines 154 to 160, on backend [k]. *)
Definition cleanupEvent (k : Kubernetes) (e : Event) : Prop :=
  match e with
  | LogInfo _ | LogWarn _ => True
  | CallDeleteNamespace k' _ => k' = k
  | _ => False
  end.

(** [h'] has the objects of [h], at the same addresses, with every field
    but [Mode] as it was. *)
Definition sameShape (h h' : gmap loc ProbeConfig) : Prop :=
  ∀ l, Spec <$> h' !! l = Spec <$> h !! l.

(** [m] is silent, leaves the world alone, and changes modes only. *)
Definition writesModesOnly {A} (m : M A) : Prop :=
  ∀ s, (m s).2 = [] ∧ world (m s).1.2 = world s ∧ sameShape (store s) (store (m s).1.2).

(** The run came to its end: it returned, and was no dry run. *)
Definition completed (args : GenerateArgs) (r : Res unit) : bool :=
  match r with
  | Ok _ => negb (DryRun args)
  | Halted _ => false
  end.

End Run.

Global Arguments TagMultiPeer {T} p.
Global Arguments TagUpstreamE2E {T} p.
Global Arguments TagExample {T} p.
Global Arguments ValidateTags {T} p.
Global Arguments GenerateTestCases {T} p.
Global Arguments CountTestCasesByTag {T} p.
Global Arguments ParseProbeMode {T} p.
Global Arguments NewKubernetesForContext {T} p.
Global Arguments ServerVersion {T} p.
Global Arguments DeleteNamespace {T} p.
Global Arguments parseProtocols {T} p.
Global Arguments NewDefaultResources {T} p.
Global Arguments GetPod {T} p.
Global Arguments ExecuteTestCase {T} p.
Global Arguments Err {T} p.
Global Arguments ret {T A} a.
Global Arguments bind {T A B} m k.
Global Arguments halt {T A} h.
Global Arguments emit {T} e.
Global Arguments callWorld {T A} f.
Global Arguments getStore {T}.
Global Arguments setStore {T} h.
Global Arguments forRange {T A} body i l.
Global Arguments printf {T} text.
Global Arguments DoOrDie {T} err.
Global Arguments orDie {T A} r.
Global Arguments newKubernetes {T} P args.
Global Arguments printTestCases {T} P testCases.
Global Arguments setup {T} P args.
Global Arguments setMode {T} mode step.
Global Arguments overrideDestinationType {T} P args testCases.
Global Arguments executeTestCase {T} P interpreter testCase.
Global Arguments runTestCase {T} P interpreter printer i testCase.
Global Arguments cleanupNamespace {T} P kubernetes ns.
Global Arguments execute {T} P args c.
Global Arguments RunGenerateCommand {T} P args.
Global Arguments SetupGenerateCommand {T} P.
Global Arguments Run {T} P flags.
Global Arguments executed {T} t.
Global Arguments testCaseListing {T} P testCases.
Global Arguments tagCountLines {T} counts.
Global Arguments testCaseLines {T} i testCases.
Global Arguments allocated {T} h testCases.
Global Arguments LoopRun {T} P interp pr _ _ _ _ _ _.
Global Arguments deref {T} h tc.
Global Arguments derefStep {T} h st.
Global Arguments MockKubernetes {T}.
Global Arguments ClusterKubernetes {T} c.
Global Arguments Stdout {T} text.
Global Arguments LogInfo {T} msg.
Global Arguments LogWarn {T} msg.
Global Arguments CallRunVersionCommand {T}.
Global Arguments CallNewMockKubernetes {T}.
Global Arguments CallNewKubernetesForContext {T} ctx.
Global Arguments CallServerVersion {T}.
Global Arguments CallNewDefaultResources {T} k namespaces pods ports timeout batch.
Global Arguments CallExecuteTestCase {T} i tc r.
Global Arguments CallPrintTestCaseResult {T} p r.
Global Arguments CallPrintSummary {T} p.
Global Arguments CallDeleteNamespace {T} k ns.
Global Arguments mkState {T} _ _.
Global Arguments world {T} s.
Global Arguments store {T} s.
Global Arguments mkSetup {T} _ _ _ _.
Global Arguments kubernetes {T} s.
Global Arguments interpreter {T} s.
Global Arguments printer {T} s.
Global Arguments testCases {T} s.
Global Arguments mkInterpreter {T} _ _ _.
Global Arguments InterpKubernetes {T} i.
Global Arguments InterpResources {T} i.
Global Arguments Config {T} i.
Global Arguments mkProbeConfig {T} _ _.
Global Arguments Mode {T} p.
Global Arguments Spec {T} p.
Global Arguments mkTestStep {T} _ _.
Global Arguments Probe {T} t.
Global Arguments StepActions {T} t.
Global Arguments mkTestCase {T} _ _ _.
Global Arguments Description {T} t.
Global Arguments Tags {T} t.
Global Arguments Steps {T} t.
Global Arguments mkStepView {T} _ _.
Global Arguments ViewProbe {T} s.
Global Arguments ViewActions {T} s.
Global Arguments mkTestCaseView {T} _ _ _.
Global Arguments ViewDescription {T} t.
Global Arguments ViewTags {T} t.
Global Arguments ViewSteps {T} t.

Global Arguments emitsOnly {T} Q {A} m.
Global Arguments returns {T A} m.
Global Arguments withMode {T} mode pc.
Global Arguments overwritten {T} mode locs h h'.
Global Arguments probes {T} tcs.
Global Arguments modesAre {T} mode v.
Global Arguments generated {T} P args zcPod.
Global Arguments executesWith {T} cfg e.
Global Arguments executesNonNegative {T} e.
Global Arguments dryRunEvent {T} e.
Global Arguments dryRunOpening {T} args.
Global Arguments closingEvent {T} e.
Global Arguments notExecution {T} e.
Global Arguments errorsEndRun {T} P pr r t.

(** A retry count and a settle duration that are not negative. *)
Definition nonNegative (cfg : InterpreterConfig) : Prop :=
  0 ≤ KubeProbeRetries cfg ∧ 0 ≤ CfgPerturbationWaitSeconds cfg.

Global Arguments resultOf {T} e.
Global Arguments printedOf {T} e.
Global Arguments summaryOf {T} e.
Global Arguments deletedOf {T} e.
Global Arguments results {T} t.
Global Arguments printed {T} t.
Global Arguments summaries {T} t.
Global Arguments deleted {T} t.
Global Arguments onBackend {T} k e.
Global Arguments printsWith {T} P pr e.
Global Arguments hasPodZC {T} P e.
Global Arguments setupEvent {T} e.
Global Arguments loopEvent {T} P interp pr e.
Global Arguments cleanupEvent {T} k e.
Global Arguments sameShape {T} h h'.
Global Arguments writesModesOnly {T A} m.

(** The arguments a dry run reads, other than the dry-run flag itself, are
    the same in [a] and [b]. *)
Definition sameForDryRun (a b : GenerateArgs) : Prop :=
  AllowDNS a = AllowDNS b
  ∧ PodCreationTimeoutSeconds a = PodCreationTimeoutSeconds b
  ∧ BatchJobs a = BatchJobs b
  ∧ ServerPorts a = ServerPorts b
  ∧ ServerProtocols a = ServerProtocols b
  ∧ ServerNamespaces a = ServerNamespaces b
  ∧ ServerPods a = ServerPods b
  ∧ Include a = Include b
  ∧ Exclude a = Exclude b.

End Cli.


(** * The interpreter and the truth table *)

Module Connectivity.
Import Cli(error, InterpreterConfig, KubeProbeRetries, ResetClusterBeforeTestCase,
  VerifyClusterStateBeforeTestCase, CfgPerturbationWaitSeconds, CfgIgnoreLoopback, CfgBatchJobs).

(** ** Data model *)

(** Modelled from the spec: the protocol of a port/protocol tuple, "drawn
    from a closed set {TCP, UDP, SCTP}"; [pkg/connectivity] and its types
    are not in [generate.go]. *)
Inductive Protocol := TCP | UDP | SCTP.

Global Instance Protocol_eq_dec : EqDecision Protocol.
Proof. solve_decision. Defined.

Global Instance Protocol_countable : Countable Protocol.
Proof.
  refine (inj_countable' (λ p, match p with TCP => 0%nat | UDP => 1%nat | SCTP => 2%nat end)
            (λ n, match n with 0%nat => TCP | 1%nat => UDP | _ => SCTP end) _).
  by intros [].
Defined.

(** Modelled from the spec: an Identity, "a (namespace, pod-name) pair with
    a resolved IP address". *)
Record Identity := mkIdentity {
  Namespace : string;
  PodName : string;
  PodIP : string
}.

Global Instance Identity_eq_dec : EqDecision Identity.
Proof. solve_decision. Defined.

Global Instance Identity_countable : Countable Identity.
Proof.
  refine (inj_countable' (λ i, (Namespace i, PodName i, PodIP i))
            (λ '(n, p, a), mkIdentity n p a) _).
  by intros [].
Defined.

(** Modelled from the spec: a Port/Protocol Tuple. *)
Record PortProtocol := mkPortProtocol {
  Port : Z;
  Proto : Protocol
}.

Global Instance PortProtocol_eq_dec : EqDecision PortProtocol.
Proof. solve_decision. Defined.

Global Instance PortProtocol_countable : Countable PortProtocol.
Proof.
  refine (inj_countable' (λ t, (Port t, Proto t)) (λ '(p, q), mkPortProtocol p q) _).
  by intros [].
Defined.

(** Modelled from the spec: the Probe Runner's Outcome. *)
Inductive Outcome := Reachable | Unreachable | Indeterminate.

Global Instance Outcome_eq_dec : EqDecision Outcome.
Proof. solve_decision. Defined.

(** Modelled from the spec: the address of a cell, (source, destination,
    tuple). *)
Abbreviation Cell := (Identity * Identity * PortProtocol)%type.

(** Modelled from the spec, section 4.1: a Truth Table, "constructed with a
    fixed, ordered set of identities and a fixed set of port/protocol
    tuples; every cell addressable by (source, destination, tuple) and
    defaults to unset until written". *)
Record TruthTable (V : Type) := mkTruthTable {
  Identities : list Identity;
  Tuples : list PortProtocol;
  Values : gmap Cell V
}.
Global Arguments mkTruthTable {V} _ _ _.
Global Arguments Identities {V} t.
Global Arguments Tuples {V} t.
Global Arguments Values {V} t.

(** Modelled from the spec, section 4.1: a new table, every cell unset. *)
Definition NewTruthTable {V} (ids : list Identity) (tuples : list PortProtocol)
    : TruthTable V :=
  mkTruthTable ids tuples ∅.

(** Modelled from the spec: the cells of a table, every combination of its
    identities and tuples, in identity order. *)
Definition Cells {V} (t : TruthTable V) : list Cell :=
  src ← Identities t; dst ← Identities t; tuple ← Tuples t; [(src, dst, tuple)].

(** Modelled from the spec, section 4.1: reading a cell; [None] is unset. *)
Definition Get {V} (t : TruthTable V) (c : Cell) : option V := Values t !! c.

(** Modelled from the spec, section 4.1: writing a cell; "writing with a
    different value overwrites" (last write wins). *)
Definition WriteCell {V} (t : TruthTable V) (c : Cell) (v : V) : TruthTable V :=
  mkTruthTable (Identities t) (Tuples t) (<[c := v]> (Values t)).

(** ** Diff *)

(** Modelled from the spec, section 4.1: one entry of a diff, "annotated
    with (source, destination, tuple, expected, observed)"; [None] is an
    unset cell. *)
Record Mismatch := mkMismatch {
  MSource : Identity;
  MDestination : Identity;
  MTuple : PortProtocol;
  MExpected : option bool;
  MObserved : option Outcome
}.

(** Modelled from the spec: the outcome a Boolean verdict stands for. *)
Definition outcomeOf (reachable : bool) : Outcome :=
  if reachable then Reachable else Unreachable.

(** Modelled from the spec: the ways a cell of the two tables compares. *)
Inductive Comparison := Same | Different | Inconclusive.

(** Modelled from the spec: how one cell compares.  An Indeterminate
    observation is no mismatch: it "downgrades the diff to a warning, not a
    hard failure" (section 4.2), and a test case whose only deviation is an
    Indeterminate cell is "still marked successful (no hard mismatch)"
    (Scenario C).  Any other disagreement, an unset cell included, is a
    mismatch. *)
Definition compareCell (expected : option bool) (observed : option Outcome) : Comparison :=
  match observed with
  | Some Indeterminate => Inconclusive
  | _ => if decide (observed = outcomeOf <$> expected) then Same else Different
  end.

(** Modelled from the spec, section 4.1: a loopback cell, "both endpoints
    are identical". *)
Definition isLoopback (c : Cell) : bool := bool_decide (c.1.1 = c.1.2).

(** Modelled from the spec, section 4.1: the diff entry of a cell. *)
Definition entryOf (expected : TruthTable bool) (observed : TruthTable Outcome)
    (c : Cell) : Mismatch :=
  mkMismatch c.1.1 c.1.2 c.2 (Get expected c) (Get observed c).

(** Modelled from the spec, section 4.1: [Diff(expected, observed)]
    "produces a sparse list of mismatched cells, each annotated with
    (source, destination, tuple, expected, observed); optionally a cell is
    excluded from comparison when both endpoints are identical (loopback)
    and the ignore-loopback option is set". *)
Definition Diff (ignoreLoopback : bool) (expected : TruthTable bool)
    (observed : TruthTable Outcome) : list Mismatch :=
  c ← Cells expected;
  if ignoreLoopback && isLoopback c then []
  else match compareCell (Get expected c) (Get observed c) with
       | Different => [entryOf expected observed c]
       | _ => []
       end.

(** Modelled from the spec: the cells the diff reports as warnings only,
    those observed Indeterminate. *)
Definition Warnings (ignoreLoopback : bool) (expected : TruthTable bool)
    (observed : TruthTable Outcome) : list Mismatch :=
  c ← Cells expected;
  if ignoreLoopback && isLoopback c then []
  else match compareCell (Get expected c) (Get observed c) with
       | Inconclusive => [entryOf expected observed c]
       | _ => []
       end.

(** ** Collaborators *)

(** Modelled from the spec: a network policy as the provisioner sees it, a
    name and a body. *)
Record Policy := mkPolicy {
  PolicyName : string;
  PolicySpec : string
}.

Global Instance Policy_eq_dec : EqDecision Policy.
Proof. solve_decision. Defined.

(** Modelled from the spec, section 6: the Resource Provisioner and the
    Probe Executor, over the state of the cluster they act on. *)
Record Externals := {
  Cluster : Type;
  ApplyPolicy : Policy → Cluster → option error * Cluster;
  DeletePolicy : string → Cluster → option error * Cluster;
  RelabelResource : string → gmap string string → Cluster → option error * Cluster;
  ReadPolicy : string → Cluster → (Policy + error) * Cluster;
  Execute : Identity → string → Z → Protocol → Cluster → (bool + error) * Cluster
}.

(** Modelled from the spec, section 4.4: the states of the interpreter's
    machine. *)
Inductive Phase :=
| Idle | Resetting | Perturbing | Settling | Verifying | Probing | Diffing | Done | Failed.

(** Modelled from the spec, section 6: the calls the interpreter makes on
    its collaborators, the settle wait, and the states it enters. *)
Inductive Call :=
| Enter (p : Phase)
| CallApplyPolicy (p : Policy)
| CallDeletePolicy (name : string)
| CallRelabelResource (ref : string) (labels : gmap string string)
| CallReadPolicy (name : string)
| CallExecute (src : Identity) (destIP : string) (port : Z) (proto : Protocol)
| Sleep (seconds : Z).

Global Instance Phase_eq_dec : EqDecision Phase.
Proof. solve_decision. Defined.

Global Instance Call_eq_dec : EqDecision Call.
Proof. solve_decision. Defined.

(** A call, with the index of the step of the test case that made it. *)
Abbreviation StepEvent := (nat * Call)%type.

(** Modelled from the spec, section 4.3: the mutation of a step, "create /
    update / delete a network policy; relabel a pod or namespace". *)
Inductive Mutation :=
| SetPolicy (p : Policy)
| RemovePolicy (name : string)
| Relabel (ref : string) (labels : gmap string string).

(** Modelled from the spec, section 3: a Step "carries the mutation to
    apply, an Expected Truth Table to validate afterward, and a tag set". *)
Record Step := mkStep {
  StepMutation : Mutation;
  Expected : TruthTable bool;
  StepTags : gset string
}.

(** Modelled from the spec: what one step yields. *)
Record StepResult := mkStepResult {
  Observed : TruthTable Outcome;
  StepDiff : list Mismatch;
  StepWarnings : list Mismatch
}.

(** Modelled from the spec, section 3: a Result, "per test case, the
    realized Observed Truth Table for each step, the diff against Expected,
    and an optional terminal error". *)
Record Result := mkResult {
  StepResults : list StepResult;
  Err : option error
}.

Section Interpreter.

Variable X : Externals.

(** Computations over the cluster that list their calls. *)
Definition Eff (A : Type) : Type := Cluster X → A * Cluster X * list StepEvent.

Definition effRet {A} (a : A) : Eff A := λ c, (a, c, []).

Definition effBind {A B} (m : Eff A) (k : A → Eff B) : Eff B :=
  λ c, let '(a, c', t) := m c in
       let '(b, c'', t') := k a c' in
       (b, c'', t ++ t').

Definition effEmit (step : nat) (call : Call) : Eff unit := λ c, (tt, c, [(step, call)]).

Definition call {A} (f : Cluster X → A * Cluster X) : Eff A :=
  λ c, let '(a, c') := f c in (a, c', []).

Global Instance Eff_ret : MRet Eff := @effRet.
Global Instance Eff_bind : MBind Eff := λ A B k m, effBind m k.

(** ** Probe Runner *)

(** Modelled from the spec, section 4.2: one probe, with [retries] retries
    left.  A result of the executor is final, connected or not ("connection
    refused/timeout ... is itself a meaningful Unreachable signal and is
    NOT retried"); an execution failure is retried, each retry "a fresh
    attempt with no backoff delay"; "exhausting retries yields
    Indeterminate". *)
Fixpoint attempt (step : nat) (retries : nat) (src dst : Identity) (tuple : PortProtocol)
    : Eff Outcome :=
  effEmit step (CallExecute src (PodIP dst) (Port tuple) (Proto tuple));;
  r ← call (Execute X src (PodIP dst) (Port tuple) (Proto tuple));
  match r with
  | inl connected => effRet (outcomeOf connected)
  | inr _ =>
      match retries with
      | O => effRet Indeterminate
      | S retries' => attempt step retries' src dst tuple
      end
  end.

(** Modelled from the spec, section 4.2: [Probe(source, destination, tuple)
    -> Outcome], retrying "up to the configured retry count".  The count is
    the configuration's integer; the spec takes it to be at least 0 and says
    nothing of a negative one, which is read as no retry. *)
Definition Probe (cfg : InterpreterConfig) (step : nat) (src dst : Identity)
    (tuple : PortProtocol) : Eff Outcome :=
  attempt step (Z.to_nat (KubeProbeRetries cfg)) src dst tuple.

(** Modelled from the spec, sections 4.4 and 4.5: the Probing state, every
    cell probed and recorded.  Batch mode "changes scheduling, never the
    per-probe contract", and "ordering of cells written into the Observed
    Truth Table is irrelevant": both modes are the cells in order. *)
Fixpoint probeCells (cfg : InterpreterConfig) (step : nat) (cells : list Cell)
    (observed : TruthTable Outcome) : Eff (TruthTable Outcome) :=
  match cells with
  | [] => effRet observed
  | c :: cells' =>
      o ← Probe cfg step c.1.1 c.1.2 c.2;
      probeCells cfg step cells' (WriteCell observed c o)
  end.

(** ** Cluster Perturbation Step *)

(** Modelled from the spec, section 4.3: the reset before a step, which
    "clears any network policies installed by the previous step
    (collaborator call)"; a collaborator error is not retried. *)
Fixpoint deletePolicies (step : nat) (names : list string) : Eff (option error) :=
  match names with
  | [] => effRet None
  | name :: names' =>
      effEmit step (CallDeletePolicy name);;
      err ← call (DeletePolicy X name);
      match err with
      | Some e => effRet (Some e)
      | None => deletePolicies step names'
      end
  end.

(** Modelled from the spec, section 4.3: the step's mutation, through the
    provisioner. *)
Definition applyMutation (step : nat) (m : Mutation) : Eff (option error) :=
  match m with
  | SetPolicy p => effEmit step (CallApplyPolicy p);; call (ApplyPolicy X p)
  | RemovePolicy name => effEmit step (CallDeletePolicy name);; call (DeletePolicy X name)
  | Relabel ref labels =>
      effEmit step (CallRelabelResource ref labels);; call (RelabelResource X ref labels)
  end.

(** Modelled from the spec, section 4.3: the policies "installed by the
    previous step", after mutation [m]. *)
Definition installedAfter (m : Mutation) (installed : list string) : list string :=
  match m with
  | SetPolicy p => PolicyName p :: filter (λ n, n ≠ PolicyName p) installed
  | RemovePolicy name => filter (λ n, n ≠ name) installed
  | Relabel _ _ => installed
  end.

(** Modelled from the spec, section 4.3: verification "re-reads the policy
    object via the collaborator and asserts it matches what was just
    applied"; a mutation that applies no policy object has none to re-read. *)
Definition verifyMutation (step : nat) (m : Mutation) : Eff (option error) :=
  match m with
  | SetPolicy p =>
      effEmit step (CallReadPolicy (PolicyName p));;
      r ← call (ReadPolicy X (PolicyName p));
      effRet (match r with
           | inl p' => if decide (p' = p) then None
                       else Some "policy read back differs from the policy applied"
           | inr e => Some e
           end)
  | _ => effRet None
  end.

(** ** Interpreter *)

(** Modelled from the spec, section 4.4: the transition into [Failed]. *)
Definition failStep (step : nat) (e : error) (installed : list string)
    : Eff ((StepResult + error) * list string) :=
  effEmit step (Enter Failed);;
  effRet (inr e, installed).

(** Modelled from the spec, section 4.4: the machine, once for one step:
    [Idle → Resetting → Perturbing → Settling → Verifying → Probing →
    Diffing → Done], with [Failed] reached from [Resetting], [Perturbing]
    or [Verifying] on a collaborator error.  [installed] names the policies
    the test case has installed so far. *)
Definition runStep (cfg : InterpreterConfig) (k : nat) (st : Step)
    (installed : list string) : Eff ((StepResult + error) * list string) :=
  effEmit k (Enter Idle);;
  reset ← (if ResetClusterBeforeTestCase cfg
           then effEmit k (Enter Resetting);; deletePolicies k installed
           else effRet None);
  match reset with
  | Some e => failStep k e installed
  | None =>
      let installed := if ResetClusterBeforeTestCase cfg then [] else installed in
      effEmit k (Enter Perturbing);;
      err ← applyMutation k (StepMutation st);
      match err with
      | Some e => failStep k e installed
      | None =>
          let installed := installedAfter (StepMutation st) installed in
          effEmit k (Enter Settling);;
          effEmit k (Sleep (CfgPerturbationWaitSeconds cfg));;
          verified ← (if VerifyClusterStateBeforeTestCase cfg
                      then effEmit k (Enter Verifying);; verifyMutation k (StepMutation st)
                      else effRet None);
          match verified with
          | Some e => failStep k e installed
          | None =>
              effEmit k (Enter Probing);;
              observed ← probeCells cfg k (Cells (Expected st))
                           (NewTruthTable (Identities (Expected st)) (Tuples (Expected st)));
              effEmit k (Enter Diffing);;
              let result :=
                mkStepResult observed
                  (Diff (CfgIgnoreLoopback cfg) (Expected st) observed)
                  (Warnings (CfgIgnoreLoopback cfg) (Expected st) observed) in
              effEmit k (Enter Done);;
              effRet (inl result, installed)
          end
      end
  end.

(** Modelled from the spec, section 4.4: "a Test Case with multiple Steps
    drives the machine sequentially, accumulating one Result per step, and
    aborts the remaining steps on the first Failed transition". *)
Fixpoint runSteps (cfg : InterpreterConfig) (k : nat) (steps : list Step)
    (installed : list string) (done : list StepResult) : Eff Result :=
  match steps with
  | [] => effRet (mkResult done None)
  | st :: steps' =>
      r ← runStep cfg k st installed;
      match r with
      | (inl result, installed') => runSteps cfg (S k) steps' installed' (done ++ [result])
      | (inr e, _) => effRet (mkResult done (Some e))
      end
  end.

(** Modelled from the spec: the interpreter on one test case, "an ordered
    sequence of perturbation Steps". *)
Definition ExecuteTestCase (cfg : InterpreterConfig) (steps : list Step) : Eff Result :=
  runSteps cfg 0 steps [] [].

(** ** Predicates on runs *)

(** Every event of [m], from any cluster state, satisfies [Q]. *)
Definition effOnly (Q : StepEvent → Prop) {A} (m : Eff A) : Prop :=
  ∀ c, Forall Q (m c).2.

(** The executor fails, with an execution error, on every attempt. *)
Definition alwaysFails : Prop :=
  ∀ src ip port proto c, ∃ e c', Execute X src ip port proto c = (inr e, c').

End Interpreter.

(** Modelled from the spec, sections 7 and 8: what a Result reports.  A
    terminal error is a failure; otherwise the test case succeeds when no
    step has a mismatched cell, warnings notwithstanding. *)
Definition Passed (r : Result) : bool :=
  match Err r with
  | Some _ => false
  | None => forallb (λ sr, match StepDiff sr with [] => true | _ => false end)
              (StepResults r)
  end.

Global Arguments effRet {X A} a.
Global Arguments effBind {X A B} m k.
Global Arguments effEmit {X} step call.
Global Arguments call {X A} f.
Global Arguments failStep {X} step e installed.

Global Arguments effOnly {X} Q {A} m.

(** An event of step [k] that is not the entry into [Failed]. *)
Definition quietAt (k : nat) (ev : StepEvent) : Prop := ev.1 = k ∧ ev.2 ≠ Enter Failed.

(** An event of step [k] before probing: neither the entry into [Failed] nor
    the entry into [Probing]. *)
Definition provisioningAt (k : nat) (ev : StepEvent) : Prop :=
  ev.1 = k ∧ ev.2 ≠ Enter Failed ∧ ev.2 ≠ Enter Probing.

(** The diff and the warnings a step's result holds are those of its tables. *)
Definition diffed (cfg : InterpreterConfig) (st : Step) (sr : StepResult) : Prop :=
  StepDiff sr = Diff (CfgIgnoreLoopback cfg) (Expected st) (Observed sr)
  ∧ StepWarnings sr = Warnings (CfgIgnoreLoopback cfg) (Expected st) (Observed sr).

(** An entry whose source is not its destination. *)
Definition notLoopback (m : Mismatch) : Prop := MSource m ≠ MDestination m.

End Connectivity.


(** * A small instance

    A generator of two test cases that share one probe object, a cluster
    that either accepts or refuses policy writes, and an executor given as
    a function; used to run the definitions on concrete inputs. *)

Module Demo.
Import Cli.

Definition demoTypes : Types :=
  {| World := bool;          (* whether the cluster accepts policy writes *)
     KubeClient := string;
     Resources := list (string * string);
     Protocol := string;
     ProbeMode := string;
     ProbeSpec := unit;
     Actions := string;
     Result := option error |}.

Definition denyAll : TestCase demoTypes :=
  mkTestCase "deny all ingress" {["policy"]}
    [mkTestStep (T:=demoTypes) 1%positive "create policy deny-all"].

Definition allowAll : TestCase demoTypes :=
  mkTestCase "allow all ingress" {["policy"; "label"]}
    [mkTestStep (T:=demoTypes) 1%positive "create policy allow-all";
     mkTestStep (T:=demoTypes) 2%positive "relabel pod x/a"].

Definition demoObjects : gmap positive (ProbeConfig demoTypes) :=
  {[ 1%positive := mkProbeConfig (T:=demoTypes) "service-name" tt;
     2%positive := mkProbeConfig (T:=demoTypes) "service-ip" tt ]}.

Definition demoParseProbeMode (mode : string) : string + error :=
  if bool_decide (mode ∈ ["service-name"; "service-ip"; "pod-ip"])
  then inl mode
  else inr ("invalid probe mode " +:+ mode).

Definition demoGetPod (r : list (string * string)) (ns pod : string) : Pod + error :=
  if bool_decide ((ns, pod) ∈ r) then inl (mkPod "10.0.0.3")
  else inr ("no pod " +:+ ns +:+ "/" +:+ pod).

Definition demo : Packages demoTypes :=
  {| TagMultiPeer := "multi-peer";
     TagUpstreamE2E := "upstream-e2e";
     TagExample := "example";
     ValidateTags := λ tags,
       if bool_decide ("no-such-tag" ∈ tags) then Some "invalid tag" else None;
     GenerateTestCases := λ _ _ _ _ _, ([denyAll; allowAll], demoObjects);
     CountTestCasesByTag := λ _, [("policy", 2); ("label", 1)];
     ParseProbeMode := demoParseProbeMode;
     NewKubernetesForContext := λ ctx w, (inl ctx, w);
     ServerVersion := λ _ w, (inl "{}", w);
     DeleteNamespace := λ _ _ w, (None, w);
     parseProtocols := λ l, l;
     NewDefaultResources := λ _ nss pods _ _ _ _ _ w,
       (inl (ns ← nss; pod ← pods; [(ns, pod)]), w);
     GetPod := demoGetPod;
     ExecuteTestCase := λ _ _ (w : World demoTypes),
       ((if w then None else Some "create network policy: forbidden") : Result demoTypes, w);
     Err := λ r, r |}.

(** The process starts with no object allocated; the cluster accepts or
    refuses writes. *)
Definition accepting : State demoTypes := mkState (T:=demoTypes) true ∅.
Definition refusing : State demoTypes := mkState (T:=demoTypes) false ∅.

Definition demoArgs (flags : list Flag) : GenerateArgs :=
  parseFlags (SetupGenerateCommand demo) flags.

Definition demoInterpreter (args : GenerateArgs) : Interpreter demoTypes :=
  mkInterpreter (T:=demoTypes) MockKubernetes
    (ns ← ServerNamespaces args; pod ← ServerPods args; [(ns, pod)])
    (newInterpreterConfig args).

Definition demoSetup (args : GenerateArgs) : Setup demoTypes :=
  mkSetup MockKubernetes (demoInterpreter args) (newPrinter args) [denyAll; allowAll].

(** [generate --mock], to be run against a cluster that refuses policy
    writes: the first test case yields a terminal error. *)
Definition refused : GenerateArgs := demoArgs [FlagMock true].

(** [generate --mock --retries=-1]. *)
Definition negative : list Flag := [FlagMock true; FlagRetries (-1)].

(** [generate --mock --destination-type=pod-ip --cleanup-namespaces]. *)
Definition podIP : GenerateArgs :=
  demoArgs [FlagMock true; FlagDestinationType "pod-ip"; FlagCleanupNamespaces true].

(** [generate --dry-run --destination-type=pod-ip]. *)
Definition dry : GenerateArgs := demoArgs [FlagDryRun true; FlagDestinationType "pod-ip"].

(** [generate], with no flag: the real cluster of the default context. *)
Definition plain : GenerateArgs := demoArgs [].

(** [generate --include=no-such-tag]. *)
Definition badTags : GenerateArgs := demoArgs [FlagInclude ["no-such-tag"]].

(** [generate --dry-run --include=no-such-tag]. *)
Definition dryBadTags : GenerateArgs :=
  demoArgs [FlagDryRun true; FlagInclude ["no-such-tag"]].

(** [generate --dry-run], with flags a dry run has no use for. *)
Definition dryOther : GenerateArgs :=
  demoArgs [FlagDryRun true; FlagMock true; FlagRetries 7; FlagNoisy true;
            FlagContext "production"; FlagCleanupNamespaces true;
            FlagDestinationType "nowhere"].

(** A second instance: the generator yields no test case, and the context
    "unreachable" cannot be loaded. *)
Definition demoBare : Packages demoTypes :=
  {| TagMultiPeer := "multi-peer";
     TagUpstreamE2E := "upstream-e2e";
     TagExample := "example";
     ValidateTags := λ _, None;
     GenerateTestCases := λ _ _ _ _ _, (([] : list (TestCase demoTypes)), ∅);
     CountTestCasesByTag := λ _, [];
     ParseProbeMode := demoParseProbeMode;
     NewKubernetesForContext := λ ctx w,
       if bool_decide (ctx = "unreachable")
       then (inr ("cannot load context " +:+ ctx), w) else (inl ctx, w);
     ServerVersion := λ _ w, (inl "{}", w);
     DeleteNamespace := λ _ ns w, (Some ("namespace " +:+ ns +:+ " is gone"), w);
     parseProtocols := λ l, l;
     NewDefaultResources := λ _ nss pods _ _ _ _ _ w,
       (inl (ns ← nss; pod ← pods; [(ns, pod)]), w);
     GetPod := demoGetPod;
     ExecuteTestCase := λ _ _ (w : World demoTypes), (None : Result demoTypes, w);
     Err := λ r, r |}.

Definition bareArgs (flags : list Flag) : GenerateArgs :=
  parseFlags (SetupGenerateCommand demoBare) flags.

(** [generate --mock --destination-type=nowhere --cleanup-namespaces]. *)
Definition bogusMode : GenerateArgs :=
  bareArgs [FlagMock true; FlagDestinationType "nowhere"; FlagCleanupNamespaces true].

Definition bareSetup (args : GenerateArgs) : Setup demoTypes :=
  mkSetup MockKubernetes (demoInterpreter args) (newPrinter args) [].

End Demo.

(** * A small cluster

    Three pods and one port, a provisioner that keeps the policies applied
    to it and refuses the policy named "rejected", and an executor given as
    a function of the source and the destination address. *)

Module DemoCluster.
Import Cli(error, InterpreterConfig, mkInterpreterConfig).
Import Connectivity.

Definition xa : Identity := mkIdentity "x" "a" "10.0.0.1".
Definition yb : Identity := mkIdentity "y" "b" "10.0.0.2".
Definition zc : Identity := mkIdentity "z" "c" "10.0.0.3".

Definition tcp80 : PortProtocol := mkPortProtocol 80 TCP.

Definition cluster (exec : Identity → string → bool + error) : Externals :=
  {| Cluster := gmap string Policy;
     ApplyPolicy := λ p c,
       if bool_decide (PolicyName p = "rejected")
       then (Some "admission webhook denied the request", c)
       else (None, <[PolicyName p := p]> c);
     DeletePolicy := λ name c, (None, delete name c);
     RelabelResource := λ _ _ c, (None, c);
     ReadPolicy := λ name c,
       (match c !! name with
        | Some p => inl p
        | None => inr ("policy " +:+ name +:+ " not found")
        end, c);
     Execute := λ src ip _ _ c, (exec src ip, c) |}.

(** The table over the three pods and the one port that holds [f] of each cell. *)
Definition tableOf (f : Cell → bool) : TruthTable bool :=
  foldl (λ t c, WriteCell t c (f c)) (NewTruthTable [xa; yb; zc] [tcp80])
    (Cells (NewTruthTable (V:=bool) [xa; yb; zc] [tcp80])).

Definition allReachable : TruthTable bool := tableOf (λ _, true).

(** All reachable, but for x/a to y/b. *)
Definition denyXaYb : TruthTable bool :=
  tableOf (λ c, negb (bool_decide (c = (xa, yb, tcp80)))).

Definition allowAllPolicy : Policy := mkPolicy "allow-all" "ingress: [{}]".
Definition rejectedPolicy : Policy := mkPolicy "rejected" "ingress: [".

Definition stepWith (p : Policy) (expected : TruthTable bool) : Step :=
  mkStep (SetPolicy p) expected ∅.

(** The executors of the scenarios. *)
Definition connects : Identity → string → bool + error := λ _ _, inl true.

Definition breaks : Identity → string → bool + error :=
  λ _ _, inr "exec: connection reset by peer".

Definition flakyXaYb : Identity → string → bool + error :=
  λ src ip, if bool_decide (src = xa ∧ ip = PodIP yb)
            then inr "exec: connection reset by peer" else inl true.

Definition refusesLoopback : Identity → string → bool + error :=
  λ src ip, inl (negb (bool_decide (ip = PodIP src))).

(** Reset and verify set, as the command sets them. *)
Definition config (retries : Z) (ignoreLoopback : bool) : InterpreterConfig :=
  mkInterpreterConfig true retries 0 true false ignoreLoopback.

End DemoCluster.

(** * Facts about the [generate] command *)

Module CliFacts.
Import Cli.

Section Facts.
Context {T : Types} (P : Packages T).

Lemma bind_inv {A B} (m : M T A) (k : A → M T B) s r s' t :
  (m ≫= k) s = (r, s', t) →
  (∃ a s1 t1 t2, m s = (Ok a, s1, t1) ∧ k a s1 = (r, s', t2) ∧ t = t1 ++ t2)
  ∨ (∃ h, m s = (Halted h, s', t) ∧ r = Halted h).
Proof.
  unfold mbind, M_bind, bind.
  destruct (m s) as [[[a|h] s1] t1].
  - destruct (k a s1) as [[r2 s2] t2] eqn:Hk. intros [= <- <- <-].
    left. by exists a, s1, t1, t2.
  - intros [= <- <- <-]. right. by exists h.
Qed.

Lemma emitsOnly_ret (Q : Event T → Prop) {A} (a : A) : emitsOnly Q (ret a).
Proof. intros s. constructor. Qed.

Lemma emitsOnly_halt (Q : Event T → Prop) {A} h : emitsOnly Q (@halt T A h).
Proof. intros s. constructor. Qed.

Lemma emitsOnly_emit (Q : Event T → Prop) e : Q e → emitsOnly Q (emit e).
Proof. intros H s. by repeat constructor. Qed.

Lemma emitsOnly_callWorld (Q : Event T → Prop) {A} (f : World T → A * World T) : emitsOnly Q (callWorld f).
Proof. intros s. unfold callWorld. destruct (f (world s)). constructor. Qed.

Lemma emitsOnly_getStore (Q : Event T → Prop) : emitsOnly Q (@getStore T).
Proof. intros s. constructor. Qed.

Lemma emitsOnly_setStore (Q : Event T → Prop) h : emitsOnly Q (@setStore T h).
Proof. intros s. constructor. Qed.

Lemma emitsOnly_bind (Q : Event T → Prop) {A B} (m : M T A) (k : A → M T B) :
  emitsOnly Q m → (∀ a, emitsOnly Q (k a)) → emitsOnly Q (m ≫= k).
Proof.
  intros Hm Hk s. unfold mbind, M_bind, bind.
  specialize (Hm s). destruct (m s) as [[[a|h] s1] t1]; simpl in *; [|done].
  specialize (Hk a s1). destruct (k a s1) as [[r2 s2] t2]. simpl in *.
  by apply Forall_app.
Qed.

Lemma emitsOnly_impl (Q Q' : Event T → Prop) {A} (m : M T A) :
  (∀ e, Q e → Q' e) → emitsOnly Q m → emitsOnly Q' m.
Proof. intros HQ Hm s. eapply Forall_impl; [apply Hm | done]. Qed.

Lemma emitsOnly_forRange (Q : Event T → Prop) {A} (body : nat → A → M T unit) l :
  (∀ i x, emitsOnly Q (body i x)) → ∀ i, emitsOnly Q (forRange body i l).
Proof.
  intros Hb. induction l as [|x l IH]; intros i; simpl.
  - apply emitsOnly_ret.
  - apply emitsOnly_bind; [apply Hb | intros _; apply IH].
Qed.

Lemma emitsOnly_DoOrDie (Q : Event T → Prop) err : emitsOnly Q (@DoOrDie T err).
Proof. destruct err; [apply emitsOnly_halt | apply emitsOnly_ret]. Qed.

Lemma emitsOnly_orDie (Q : Event T → Prop) {A} (r : A + error) : emitsOnly Q (@orDie T A r).
Proof. destruct r; [apply emitsOnly_ret | apply emitsOnly_halt]. Qed.


(** Running the pieces *)

Lemma tagCount_run counts i s :
  forRange (λ _ '(tag, count),
      printf (T:=T) ("- " +:+ tag +:+ ": " +:+ pretty count +:+ nl)) i counts s
  = (Ok tt, s, tagCountLines counts).
Proof.
  revert i s. induction counts as [|[tag count] rest IH]; intros i s; [done|].
  simpl. unfold mbind, M_bind, bind. simpl. by rewrite IH.
Qed.

Lemma testCaseLines_run (tcs : list (TestCase T)) i s :
  forRange (λ i testCase,
      printf (T:=T) ("test #" +:+ pretty (Z.of_nat i + 1) +:+ ": " +:+ Description testCase
              +:+ nl +:+ " - tags: "
              +:+ String.concat ", " (elements (Tags testCase)) +:+ nl)) i tcs s
  = (Ok tt, s, testCaseLines i tcs).
Proof.
  revert i s. induction tcs as [|tc rest IH]; intros i s; [done|].
  simpl. unfold mbind, M_bind, bind. simpl. by rewrite IH.
Qed.

Lemma printTestCases_run tcs s :
  printTestCases P tcs s = (Ok tt, s, testCaseListing P tcs).
Proof.
  unfold printTestCases, testCaseListing, mbind, M_bind, bind. simpl.
  rewrite tagCount_run. simpl. rewrite testCaseLines_run. done.
Qed.

(** The loop of lines 141 to 149 follows [LoopRun] and leaves the store alone. *)
Lemma loop_run interp pr tcs : ∀ i s r s' t,
  forRange (runTestCase P interp pr) i tcs s = (r, s', t) →
  LoopRun P interp pr i (deref (store s) <$> tcs) (world s) r (world s') t
  ∧ store s' = store s.
Proof.
  induction tcs as [|tc rest IH]; intros i s r s' t; simpl.
  - intros [= <- <- <-]. split; [constructor | done].
  - unfold runTestCase, executeTestCase, mbind, M_bind, bind, callWorld. simpl.
    destruct (ExecuteTestCase P interp (deref (store s) tc) (world s)) as [res w'] eqn:Hex.
    simpl. destruct (Err P res) as [e|] eqn:Herr; simpl.
    + intros [= <- <- <-]. split; [|done]. by eapply LoopDie.
    + destruct (forRange _ (S i) rest _) as [[r2 s2] t2] eqn:Hrest.
      intros [= <- <- <-]. apply IH in Hrest as [Hl Hst]. simpl in *.
      split; [|done]. by eapply LoopNext.
Qed.


Lemma setup_inv args s r s1 t :
  setup P args s = (r, s1, t) →
  match r with
  | Ok c =>
      ∃ pre zcPod resources,
        testCases c = (generated P args zcPod).1
        ∧ store s1 = (generated P args zcPod).2
        ∧ t = pre ++ testCaseListing P (testCases c)
        ∧ interpreter c = mkInterpreter (kubernetes c) resources (newInterpreterConfig args)
        ∧ printer c = newPrinter args
        ∧ (Mock args || DryRun args = true → kubernetes c = MockKubernetes)
  | Halted h => ∃ e, h = Fatal e
  end.
Proof.
  unfold setup, newKubernetes, DoOrDie, orDie, callWorld, mbind, M_bind, bind,
    mret, M_ret, ret, halt, emit, printf, setStore, generated.
  intros H. simpl in H.
  repeat (case_match; simpl in *; simplify_eq; eauto);
    try rewrite printTestCases_run in *; simplify_eq; simpl.
  all: match goal with
       | Hg : GenerateTestCases _ _ (IP ?zc) _ _ _ = _ |- _ =>
           eexists _, zc, _; rewrite Hg, app_nil_r; unfold testCaseListing
       end; split_and!; try done.
  all: first [exact (eq_refl ([_; _; _] ++ _)) | exact (eq_refl ([_; _; _; _; _] ++ _))].
Qed.


Lemma overwritten_nil (mode : ProbeMode T) h : overwritten mode [] h h.
Proof. intros l. rewrite decide_False; [done | apply not_elem_of_nil]. Qed.

Lemma overwritten_app (mode : ProbeMode T) l1 l2 h h1 h2 :
  overwritten mode l1 h h1 → overwritten mode l2 h1 h2 →
  overwritten mode (l1 ++ l2) h h2.
Proof.
  intros H1 H2 l. rewrite H2, H1.
  destruct (decide (l ∈ l1)), (decide (l ∈ l2)).
  - rewrite decide_True by (apply elem_of_app; auto). by destruct (h !! l).
  - rewrite decide_True by (apply elem_of_app; auto). done.
  - rewrite decide_True by (apply elem_of_app; auto). done.
  - rewrite decide_False; [done|]. rewrite elem_of_app. tauto.
Qed.

Lemma overwritten_allocated (mode : ProbeMode T) locs h h' l :
  overwritten mode locs h h' → is_Some (h !! l) → is_Some (h' !! l).
Proof.
  intros H [pc Hpc]. rewrite H, Hpc. case_decide; simpl; eauto.
Qed.

Lemma setMode_run (mode : ProbeMode T) st s pc :
  store s !! Probe st = Some pc →
  setMode mode st s
  = (Ok tt, mkState (world s) (<[Probe st := withMode mode pc]> (store s)), []).
Proof.
  intros H. unfold setMode, getStore, mbind, M_bind, bind. by rewrite H.
Qed.

Lemma setMode_nil (mode : ProbeMode T) st s :
  store s !! Probe st = None → setMode mode st s = (Halted NilPointer, s, []).
Proof.
  intros H. unfold setMode, getStore, mbind, M_bind, bind. by rewrite H.
Qed.

Lemma overwritten_insert (mode : ProbeMode T) l h pc :
  h !! l = Some pc → overwritten mode [l] h (<[l := withMode mode pc]> h).
Proof.
  intros H l'. destruct (decide (l' = l)) as [->|Hne].
  - rewrite lookup_insert_eq, decide_True by apply list_elem_of_singleton, eq_refl.
    by rewrite H.
  - rewrite lookup_insert_ne by done.
    rewrite decide_False; [done|]. by rewrite list_elem_of_singleton.
Qed.

Lemma steps_run (mode : ProbeMode T) steps : ∀ i s,
  Forall (λ st, is_Some (store s !! Probe st)) steps →
  ∃ h', forRange (λ _ st, setMode mode st) i steps s = (Ok tt, mkState (world s) h', [])
        ∧ overwritten mode (Probe <$> steps) (store s) h'.
Proof.
  induction steps as [|st rest IH]; intros i s Hall; simpl.
  - exists (store s). split; [by destruct s | apply overwritten_nil].
  - apply Forall_cons in Hall as [[pc Hpc] Hrest].
    unfold mbind, M_bind, bind. rewrite (setMode_run _ _ _ pc Hpc).
    pose proof (overwritten_insert mode _ _ _ Hpc) as Hin.
    destruct (IH (S i) (mkState (world s) (<[Probe st := withMode mode pc]> (store s))))
      as (h' & Hrun & Hov).
    { simpl. eapply Forall_impl; [exact Hrest|]. intros st' Hst'. simpl in *.
      by eapply overwritten_allocated. }
    rewrite Hrun. simpl in *. exists h'. split; [done|].
    by apply (overwritten_app mode [Probe st] (Probe <$> rest) _ _ _ Hin).
Qed.

Lemma testCases_run (mode : ProbeMode T) tcs : ∀ i s,
  allocated (store s) tcs →
  ∃ h', forRange (λ _ testCase,
            forRange (λ _ step, setMode mode step) 0%nat (Steps testCase)) i tcs s
        = (Ok tt, mkState (world s) h', [])
        ∧ overwritten mode (probes tcs) (store s) h'.
Proof.
  induction tcs as [|tc rest IH]; intros i s Hall; simpl.
  - exists (store s). split; [by destruct s | apply overwritten_nil].
  - apply Forall_cons in Hall as [Htc Hrest].
    destruct (steps_run mode (Steps tc) 0%nat s Htc) as (h1 & Hrun1 & Hov1).
    unfold mbind, M_bind, bind. rewrite Hrun1.
    destruct (IH (S i) (mkState (world s) h1)) as (h' & Hrun & Hov).
    { simpl. eapply Forall_impl; [exact Hrest|]. intros tc' Htc'. simpl in *.
      eapply Forall_impl; [exact Htc'|]. intros st Hst. simpl in *.
      by eapply overwritten_allocated. }
    rewrite Hrun. simpl in *. exists h'. split; [done|].
    unfold probes. simpl. by eapply overwritten_app.
Qed.


Ltac emits :=
  repeat first
    [ apply emitsOnly_ret | apply emitsOnly_halt | apply emitsOnly_callWorld
    | apply emitsOnly_getStore | apply emitsOnly_setStore
    | apply emitsOnly_DoOrDie | apply emitsOnly_orDie
    | apply emitsOnly_emit; try done
    | apply emitsOnly_bind; [|intros ?]
    | apply emitsOnly_forRange; intros ? ?
    | progress unfold printf
    | match goal with |- emitsOnly _ (match ?x with _ => _ end) => destruct x end ].

Lemma emitsOnly_nothing {A} (m : M T A) s :
  emitsOnly (λ _, False) m → (m s).2 = [].
Proof. intros H. specialize (H s). destruct ((m s).2); [done|]. by inversion H. Qed.

Lemma setMode_silent (mode : ProbeMode T) st : emitsOnly (λ _, False) (setMode mode st).
Proof. unfold setMode. emits. Qed.

Lemma override_silent args tcs :
  emitsOnly (λ _, False) (overrideDestinationType P args tcs).
Proof. unfold overrideDestinationType. emits. Qed.

(** Lines 131 to 139, case by case. *)
Lemma override_run args tcs s :
  allocated (store s) tcs →
  ∃ r s', overrideDestinationType P args tcs s = (r, s', [])
    ∧ world s' = world s
    ∧ if decide (DestinationType args = "") then r = Ok tt ∧ s' = s
      else match ParseProbeMode P (DestinationType args) with
           | inr e => r = Halted (Fatal e) ∧ s' = s
           | inl mode =>
               r = Ok tt ∧ overwritten mode (probes tcs) (store s) (store s')
           end.
Proof.
  intros Hall. unfold overrideDestinationType.
  destruct (decide (DestinationType args = "")) as [Heq|Hne].
  - by exists (Ok tt), s.
  - unfold mbind, M_bind, bind, orDie.
    destruct (ParseProbeMode P (DestinationType args)) as [mode|e]; simpl.
    + destruct (testCases_run mode tcs 0%nat s Hall) as (h' & -> & Hov).
      by eexists _, _.
    + by exists (Halted (Fatal e)), s.
Qed.

Lemma returns_bind {A B} (m : M T A) (k : A → M T B) :
  returns m → (∀ a, returns (k a)) → returns (m ≫= k).
Proof.
  intros Hm Hk s. destruct (Hm s) as (a & s1 & t1 & Hm1 & Hs1).
  destruct (Hk a s1) as (b & s2 & t2 & Hk2 & Hs2).
  exists b, s2, (t1 ++ t2). unfold mbind, M_bind, bind. rewrite Hm1, Hk2.
  split; [done | congruence].
Qed.

Lemma returns_forRange {A} (body : nat → A → M T unit) l :
  (∀ i x, returns (body i x)) → ∀ i, returns (forRange body i l).
Proof.
  intros Hb. induction l as [|x l IH]; intros i; simpl.
  - intros s. by exists tt, s, [].
  - apply returns_bind; [apply Hb | intros _; apply IH].
Qed.

Lemma returns_emit e : returns (emit (T:=T) e).
Proof. intros s. by exists tt, s, [e]. Qed.

Lemma returns_ret {A} (a : A) : returns (ret (T:=T) a).
Proof. intros s. by exists a, s, []. Qed.

Lemma returns_callWorld {A} (f : World T → A * World T) : returns (callWorld f).
Proof.
  intros s. unfold callWorld. destruct (f (world s)) as [a w].
  by exists a, (mkState w (store s)), [].
Qed.

Lemma cleanupNamespace_returns k ns : returns (cleanupNamespace P k ns).
Proof.
  unfold cleanupNamespace.
  repeat first [apply returns_bind; [|intros ?] | apply returns_emit
               | apply returns_callWorld | apply returns_ret ].
  destruct a1; [apply returns_emit | apply returns_ret].
Qed.

Lemma cleanupNamespace_emits k ns : emitsOnly closingEvent (cleanupNamespace P k ns).
Proof. unfold cleanupNamespace. emits. Qed.


Lemma execute_inv args c s1 r s' post :
  execute P args c s1 = (r, s', post) →
  ∃ r0 s2, overrideDestinationType P args (testCases c) s1 = (r0, s2, [])
    ∧ match r0 with
      | Halted h => r = Halted h ∧ post = [] ∧ s' = s2
      | Ok _ =>
          ∃ rl w loop closing,
            LoopRun P (interpreter c) (printer c) 0
              (deref (store s2) <$> testCases c) (world s2) rl w loop
            ∧ post = loop ++ closing
            ∧ store s' = store s2
            ∧ match rl with
              | Halted h => r = Halted h ∧ closing = []
              | Ok _ => r = Ok tt ∧ Forall closingEvent closing
              end
      end.
Proof.
  unfold execute. intros H.
  pose proof (emitsOnly_nothing _ s1 (override_silent args (testCases c))) as Hsilent.
  apply bind_inv in H as [(a & s2 & t1 & t2 & Hov & H & Ht)|(h & Hov & Hr)];
    rewrite Hov in Hsilent; simpl in Hsilent; subst.
  2: { exists (Halted h), s'. by split. }
  exists (Ok a), s2. split; [done|]. simpl.
  apply bind_inv in H as [(a' & s3 & t3 & t4 & Hloop & H & Ht)|(h & Hloop & Hr)];
    apply loop_run in Hloop as [Hloop Hst]; subst.
  2: { exists (Halted h), (world s'), t2, []. by rewrite app_nil_r. }
  exists (Ok a'), (world s3), t3, t4. split; [done|]. split; [done|].
  assert (Hret : returns (emit (CallPrintSummary (printer c));;
            if CleanupNamespaces args
            then forRange (λ _ ns, cleanupNamespace P (kubernetes c) ns) 0%nat
                   (ServerNamespaces args)
            else ret tt)).
  { apply returns_bind; [apply returns_emit|intros _].
    destruct (CleanupNamespaces args); [|apply returns_ret].
    apply returns_forRange. intros _ ns. apply cleanupNamespace_returns. }
  assert (Hem : emitsOnly closingEvent (emit (CallPrintSummary (printer c));;
            if CleanupNamespaces args
            then forRange (λ _ ns, cleanupNamespace P (kubernetes c) ns) 0%nat
                   (ServerNamespaces args)
            else ret tt)).
  { emits. }
  destruct (Hret s3) as (u & s4 & t5 & Hrun & Hst4).
  specialize (Hem s3). rewrite Hrun in Hem. rewrite Hrun in H.
  simplify_eq. simpl in *. destruct u. split; [congruence | done].
Qed.


Lemma run_executesWith args :
  emitsOnly (executesWith (newInterpreterConfig args)) (RunGenerateCommand P args).
Proof.
  intros s. destruct (RunGenerateCommand P args s) as [[r s'] t] eqn:Hrun. simpl.
  unfold RunGenerateCommand in Hrun.
  assert (Hsetup : emitsOnly (executesWith (newInterpreterConfig args)) (setup P args)).
  { unfold setup, newKubernetes, printTestCases. emits. }
  specialize (Hsetup s).
  apply bind_inv in Hrun as [(c & s1 & t1 & t2 & Hs & Hrun & ->)|(h & Hs & ->)];
    rewrite Hs in Hsetup; simpl in Hsetup; [|done].
  apply Forall_app. split; [done|].
  apply setup_inv in Hs as (pre & zc & res & _ & _ & _ & Hi & _).
  destruct (DryRun args).
  - injection Hrun as <- <- <-. constructor.
  - assert (Hex : emitsOnly (executesWith (newInterpreterConfig args)) (execute P args c)).
    { unfold execute, runTestCase, executeTestCase, cleanupNamespace. emits.
      - eapply emitsOnly_impl; [|apply override_silent]. done.
      - simpl. by rewrite Hi. }
    specialize (Hex s1). by rewrite Hrun in Hex.
Qed.

Lemma tagCountLines_dryRun counts : Forall dryRunEvent (tagCountLines (T:=T) counts).
Proof. induction counts as [|[tag n] rest IH]; simpl; by constructor. Qed.

Lemma testCaseLines_dryRun (tcs : list (TestCase T)) i :
  Forall dryRunEvent (testCaseLines i tcs).
Proof. revert i. induction tcs as [|tc rest IH]; intros i; simpl; by constructor. Qed.

Lemma listing_dryRun tcs : Forall dryRunEvent (testCaseListing P tcs).
Proof.
  unfold testCaseListing. constructor; [done|]. apply Forall_app. split.
  - apply tagCountLines_dryRun.
  - constructor; [done | apply testCaseLines_dryRun].
Qed.

Lemma setup_dryRun args :
  DryRun args = true → emitsOnly dryRunEvent (setup P args).
Proof.
  intros Hdry s. destruct (setup P args s) as [[r s1] t] eqn:H. simpl.
  unfold setup, newKubernetes, DoOrDie, orDie, callWorld, mbind, M_bind, bind,
    mret, M_ret, ret, halt, emit, printf, setStore in H.
  rewrite Hdry, orb_true_r in H. simpl in H.
  repeat (case_match; simpl in *; simplify_eq);
    try rewrite printTestCases_run in *; simplify_eq; simpl.
  all: repeat (constructor; [done|]); try done.
  rewrite app_nil_r.
  match goal with |- Forall _ (tagCountLines (CountTestCasesByTag P ?l) ++ _) =>
    pose proof (listing_dryRun l) as Hl end.
  by inversion Hl.
Qed.


(** Reading executions off a trace *)

Lemma executed_app (a b : list (Event T)) : executed (a ++ b) = executed a ++ executed b.
Proof.
  induction a as [|e a IH]; [done|]. destruct e; simpl; by rewrite ?IH.
Qed.

Lemma executed_none (t : list (Event T)) : Forall notExecution t → executed t = [].
Proof.
  induction 1 as [|e t He _ IH]; [done|]. by destruct e.
Qed.

Lemma closing_notExecution (t : list (Event T)) :
  Forall closingEvent t → Forall notExecution t.
Proof. intros H. eapply Forall_impl; [exact H|]. by intros []. Qed.

Lemma dryRun_notExecution (t : list (Event T)) :
  Forall dryRunEvent t → Forall notExecution t.
Proof. intros H. eapply Forall_impl; [exact H|]. by intros []. Qed.

Lemma setup_notExecution args : emitsOnly notExecution (setup P args).
Proof. unfold setup, newKubernetes, printTestCases. emits. Qed.

Lemma loop_executed interp pr i views w r w' t :
  LoopRun P interp pr i views w r w' t →
  executed t `prefix_of` views ∧ (r = Ok tt → executed t = views).
Proof.
  induction 1 as [i w|i v vs w res w' e Hex Herr|i v vs w res w' r w'' t Hex Herr _ [IH1 IH2]];
    simpl.
  - split; [apply prefix_nil | done].
  - split; [|done]. apply prefix_cons, prefix_nil.
  - split; [by apply prefix_cons|]. intros Hr. by rewrite IH2.
Qed.

(** How a terminal error ends a run *)

Lemma errorsEndRun_notExecution pr r (t : list (Event T)) :
  Forall notExecution t → errorsEndRun P pr r t.
Proof. induction 1 as [|e t He _ IH]; [done|]. by destruct e. Qed.

Lemma errorsEndRun_app pr r (a b : list (Event T)) :
  Forall notExecution a → errorsEndRun P pr r b → errorsEndRun P pr r (a ++ b).
Proof. induction 1 as [|e a He _ IH]; [done|]. intros Hb. destruct e; simpl; auto; done. Qed.

Lemma loop_errorsEndRun interp pr i views w rl w' loop :
  LoopRun P interp pr i views w rl w' loop →
  ∀ r closing,
    match rl with
    | Halted h => r = Halted h ∧ closing = []
    | Ok _ => Forall notExecution closing
    end →
    errorsEndRun P pr r (loop ++ closing).
Proof.
  induction 1 as [i w|i v vs w res w' e Hex Herr|i v vs w res w' r0 w'' t Hex Herr _ IH];
    intros r closing Hend; simpl.
  - by apply errorsEndRun_notExecution.
  - destruct Hend as [-> ->]. by rewrite Herr.
  - rewrite Herr. split; [by eexists _, _|]. by apply IH.
Qed.

Lemma errorsEndRun_split pr r (pre : list (Event T)) i v res post :
  errorsEndRun P pr r (pre ++ CallExecuteTestCase i v res :: post) →
  match Err P res with
  | Some e => r = Halted (Fatal e) ∧ post = []
  | None =>
      ∃ (k : Z) post',
        post = CallPrintTestCaseResult pr res
                 :: Stdout ("finished policy #" +:+ pretty k +:+ nl) :: post'
  end.
Proof.
  induction pre as [|e pre IH]; simpl.
  - destruct (Err P res); [done | by intros [? _]].
  - destruct e; try done.
    match goal with |- context [Err P ?x] => destruct (Err P x) end.
    + intros [_ Hnil]. by destruct pre.
    + intros [_ H]. by apply IH.
Qed.

Lemma run_errorsEndRun args s :
  errorsEndRun P (newPrinter args) (RunGenerateCommand P args s).1.1
    (RunGenerateCommand P args s).2.
Proof.
  destruct (RunGenerateCommand P args s) as [[r s'] t] eqn:Hrun. simpl.
  unfold RunGenerateCommand in Hrun.
  pose proof (setup_notExecution args s) as Hpre.
  apply bind_inv in Hrun as [(c & s1 & t1 & t2 & Hs & Hrun & ->)|(h & Hs & ->)];
    rewrite Hs in Hpre; simpl in Hpre.
  2: { by apply errorsEndRun_notExecution. }
  apply errorsEndRun_app; [done|].
  apply setup_inv in Hs as (pre & zc & res & _ & _ & _ & _ & Hpr & _).
  destruct (DryRun args).
  { injection Hrun as <- <- <-. done. }
  apply execute_inv in Hrun as (r0 & s2 & _ & Hrest).
  destruct r0 as [[]|h].
  - destruct Hrest as (rl & w & loop & closing & Hloop & -> & _ & Hend).
    rewrite <- Hpr. eapply loop_errorsEndRun; [exact Hloop|].
    destruct rl as [[]|h]; [|done]. destruct Hend as [_ Hc].
    by apply closing_notExecution.
  - by destruct Hrest as (_ & -> & _).
Qed.


(** ** The claims about [RunGenerateCommand] *)

(** C1, as amended.  In the trace of any run, an execution of a test case
    whose Result carries a terminal error is the last event, and the run
    has halted on that error ([utils.DoOrDie(result.Err)], line 145): no
    result is printed for it and no later test case starts.  An execution
    whose Result carries no error is followed by the printing of its result
    and the "finished" line, after which the run goes on. *)
Theorem terminal_error_ends_run args s pre i v res post :
  (RunGenerateCommand P args s).2 = pre ++ CallExecuteTestCase i v res :: post →
  match Err P res with
  | Some e => (RunGenerateCommand P args s).1.1 = Halted (Fatal e) ∧ post = []
  | None =>
      ∃ (k : Z) post',
        post = CallPrintTestCaseResult (newPrinter args) res
                 :: Stdout ("finished policy #" +:+ pretty k +:+ nl) :: post'
  end.
Proof.
  intros Ht. pose proof (run_errorsEndRun args s) as Hend.
  rewrite Ht in Hend. by apply errorsEndRun_split in Hend.
Qed.

(** C6, as amended.  The retry count and the settle duration of the
    configuration are the [--retries] and [--perturbation-wait-seconds]
    arguments as given: they are at least 0 exactly when the arguments are,
    as the defaults (1 and 5) are; nothing rejects a negative value.  The
    command builds the configuration once, and every test case of the run
    is executed by an interpreter holding that configuration. *)
Theorem config_nonnegative_iff_args args s :
  (nonNegative (newInterpreterConfig args)
   ↔ 0 ≤ Retries args ∧ 0 ≤ PerturbationWaitSeconds args)
  ∧ nonNegative (newInterpreterConfig (SetupGenerateCommand P))
  ∧ Forall (executesWith (newInterpreterConfig args)) (RunGenerateCommand P args s).2.
Proof.
  split; [done|]. split; [by split|]. apply run_executesWith.
Qed.

(** C7.  A run that has got past its setup and is no dry run executes the
    test cases one after the other in the order the generator produced
    them: the trace is the setup's events, then the events of the loop,
    then the closing events; the loop's events follow [LoopRun], in which
    test case [i+1] starts in the world test case [i] left and after its
    "finished" line; the test cases executed are an initial segment of the
    generated ones (all of them when the run returns). *)
Theorem test_cases_run_in_sequence args s c s1 pre :
  DryRun args = false →
  setup P args s = (Ok c, s1, pre) →
  ∃ r0 s2,
    overrideDestinationType P args (testCases c) s1 = (r0, s2, [])
    ∧ (∃ zcPod, testCases c = (generated P args zcPod).1)
    ∧ let views := deref (store s2) <$> testCases c in
      let '(r, s', t) := RunGenerateCommand P args s in
      match r0 with
      | Halted h => r = Halted h ∧ t = pre
      | Ok _ =>
          ∃ rl w loop closing,
            t = pre ++ loop ++ closing
            ∧ LoopRun P (interpreter c) (printer c) 0 views (world s2) rl w loop
            ∧ executed pre = [] ∧ executed closing = []
            ∧ executed t `prefix_of` views
            ∧ (r = Ok tt → executed t = views)
      end.
Proof.
  intros Hdry Hs.
  pose proof (setup_notExecution args s) as Hpre. rewrite Hs in Hpre. simpl in Hpre.
  pose proof (setup_inv _ _ _ _ _ Hs) as (_ & zc & _ & Hgen & _).
  destruct (RunGenerateCommand P args s) as [[r s'] t] eqn:Hrun.
  unfold RunGenerateCommand, mbind, M_bind, bind in Hrun. rewrite Hs, Hdry in Hrun.
  destruct (execute P args c s1) as [[r1 s3] post] eqn:Hex. injection Hrun as <- <- <-.
  apply execute_inv in Hex as (r0 & s2 & Hov & Hrest).
  exists r0, s2. split; [done|]. split; [by exists zc|]. simpl.
  destruct r0 as [[]|h].
  - destruct Hrest as (rl & w & loop & closing & Hloop & -> & _ & Hend).
    exists rl, w, loop, closing. split; [done|]. split; [done|].
    pose proof (loop_executed _ _ _ _ _ _ _ _ Hloop) as [Hprefix Hall].
    assert (executed closing = []) as Hclosing.
    { destruct rl as [[]|h]; [|by destruct Hend as [_ ->]].
      destruct Hend as [_ Hc]. by apply executed_none, closing_notExecution. }
    rewrite !executed_app, (executed_none pre Hpre), Hclosing, app_nil_r. simpl.
    split; [done|]. split; [done|]. split; [done|].
    intros ->. apply Hall. by destruct rl as [[]|h]; [|destruct Hend].
  - destruct Hrest as (-> & -> & _). by rewrite app_nil_r.
Qed.

(** C8.  The configuration built from any arguments has the reset and the
    verify flags set; its retry count, settle duration, batch-mode flag and
    ignore-loopback flag are the arguments'; and every test case of every
    run is executed by an interpreter holding this configuration. *)
Theorem config_fixed_and_from_args args s :
  let cfg := newInterpreterConfig args in
  ResetClusterBeforeTestCase cfg = true
  ∧ VerifyClusterStateBeforeTestCase cfg = true
  ∧ KubeProbeRetries cfg = Retries args
  ∧ CfgPerturbationWaitSeconds cfg = PerturbationWaitSeconds args
  ∧ CfgBatchJobs cfg = BatchJobs args
  ∧ CfgIgnoreLoopback cfg = IgnoreLoopback args
  ∧ Forall (executesWith cfg) (RunGenerateCommand P args s).2.
Proof.
  simpl. split_and!; try done. apply run_executesWith.
Qed.

(** C9, as amended.  With the dry-run flag set, no cluster is contacted, no
    test case is executed, nothing is handed to the printer and no namespace
    is deleted; and what the run does is decided by the three error checks
    of its setup.  When the tags are rejected (line 77) it halts on that
    error right after the version command: no backend has been created and
    nothing is listed.  Otherwise the mock is created and asked for the
    resources; when that fails (line 96), or the resources hold no pod z/c
    (line 113), the run halts on that error with nothing listed.  In every
    other case the run returns, and what it did after the resources were
    created is the listing of the generated test cases. *)
Theorem dry_run_only_lists args s :
  DryRun args = true →
  let '(r, s', t) := RunGenerateCommand P args s in
  Forall dryRunEvent t
  ∧ executed t = []
  ∧ match ValidateTags P (Include args ++ Exclude args) with
    | Some e => r = Halted (Fatal e) ∧ s' = s ∧ t = [CallRunVersionCommand]
    | None =>
        let '(created, w) :=
          NewDefaultResources P MockKubernetes (ServerNamespaces args) (ServerPods args)
            (ServerPorts args) (parseProtocols P (ServerProtocols args)) []
            (PodCreationTimeoutSeconds args) (BatchJobs args) (world s) in
        match created with
        | inr e =>
            r = Halted (Fatal e) ∧ s' = mkState w (store s) ∧ t = dryRunOpening args
        | inl resources =>
            match GetPod P resources "z" "c" with
            | inr e =>
                r = Halted (Fatal e) ∧ s' = mkState w (store s)
                ∧ t = dryRunOpening args
            | inl zcPod =>
                r = Ok tt
                ∧ s' = mkState w (generated P args zcPod).2
                ∧ t = dryRunOpening args ++ testCaseListing P (generated P args zcPod).1
            end
        end
    end.
Proof.
  intros Hdry.
  destruct (RunGenerateCommand P args s) as [[r s'] t] eqn:Hrun.
  pose proof (setup_dryRun args Hdry s) as Hev.
  unfold RunGenerateCommand, mbind, M_bind, bind in Hrun. rewrite Hdry in Hrun.
  assert ((setup P args s).2 = t ∧ (setup P args s).1.2 = s'
          ∧ match (setup P args s).1.1 with
            | Ok _ => r = Ok tt
            | Halted h => r = Halted h
            end) as (Ht & Hs' & Hr).
  { destruct (setup P args s) as [[[c|h] s1] t1]; simpl in *;
      injection Hrun as <- <- <-; by rewrite ?app_nil_r. }
  rewrite Ht in Hev. split; [done|].
  split; [by apply executed_none, dryRun_notExecution|].
  clear Hrun Hev. subst s' t. revert Hr.
  unfold setup, newKubernetes, DoOrDie, orDie, callWorld, mbind, M_bind, bind,
    mret, M_ret, ret, halt, emit, printf, setStore, generated, dryRunOpening,
    testCaseListing.
  rewrite Hdry, orb_true_r. simpl.
  destruct (ValidateTags P (Include args ++ Exclude args)) as [e|]; simpl;
    [by destruct s|].
  destruct (NewDefaultResources P MockKubernetes _ _ _ _ _ _ _ (world s))
    as [[resources|e] w]; simpl; [|done].
  destruct (GetPod P resources "z" "c") as [zcPod|e]; simpl; [|done].
  destruct (GenerateTestCases P _ _ _ _ _) as [tcs objects]; simpl.
  rewrite printTestCases_run. simpl. by rewrite app_nil_r.
Qed.

(** C10, as amended.  In a run that is no dry run, has got past its setup,
    and whose steps all point at a probe object: with an empty destination
    type the objects are left as generated and the test cases are executed
    as generated; with a non-empty one that does not parse, the run halts
    on the parse error with no test case executed and no object changed;
    with one that parses, the mode of every object a step points at is
    overwritten with the parsed mode, nothing else changes, and every test
    case executed is read with that mode in every step. *)
Theorem destination_type_override args s c s1 pre :
  DryRun args = false →
  setup P args s = (Ok c, s1, pre) →
  allocated (store s1) (testCases c) →
  let '(r, s', t) := RunGenerateCommand P args s in
  if decide (DestinationType args = "") then
    store s' = store s1
    ∧ executed t `prefix_of` (deref (store s1) <$> testCases c)
  else
    match ParseProbeMode P (DestinationType args) with
    | inr e => r = Halted (Fatal e) ∧ executed t = [] ∧ store s' = store s1
    | inl mode =>
        overwritten mode (probes (testCases c)) (store s1) (store s')
        ∧ Forall (modesAre mode) (executed t)
        ∧ executed t `prefix_of` (deref (store s') <$> testCases c)
    end.
Proof.
  intros Hdry Hs Hall.
  pose proof (setup_notExecution args s) as Hpre. rewrite Hs in Hpre. simpl in Hpre.
  destruct (RunGenerateCommand P args s) as [[r s'] t] eqn:Hrun.
  unfold RunGenerateCommand, mbind, M_bind, bind in Hrun. rewrite Hs, Hdry in Hrun.
  destruct (execute P args c s1) as [[r1 s3] post] eqn:Hex. injection Hrun as <- <- <-.
  apply execute_inv in Hex as (r0 & s2 & Hov & Hrest).
  destruct (override_run args (testCases c) s1 Hall) as (r0' & s2' & Hov' & _ & Hcase).
  rewrite Hov in Hov'. injection Hov' as <- <-.
  assert (∀ h, r0 = Ok tt → store s2 = h →
            store s3 = h ∧ executed (pre ++ post) `prefix_of` (deref h <$> testCases c))
    as Hexec.
  { intros h -> <-.
    destruct Hrest as (rl & w & loop & closing & Hloop & -> & Hst & Hend).
    split; [done|].
    pose proof (loop_executed _ _ _ _ _ _ _ _ Hloop) as [Hprefix _].
    assert (executed closing = []) as Hclosing.
    { destruct rl as [[]|h]; [|by destruct Hend as [_ ->]].
      destruct Hend as [_ Hc]. by apply executed_none, closing_notExecution. }
    by rewrite !executed_app, (executed_none pre Hpre), Hclosing, app_nil_r. }
  destruct (decide (DestinationType args = "")) as [Hempty|Hgiven].
  - destruct Hcase as [-> ->]. by apply Hexec.
  - destruct (ParseProbeMode P (DestinationType args)) as [mode|e].
    + destruct Hcase as [-> Hover].
      destruct (Hexec (store s2) eq_refl eq_refl) as [Hst Hprefix].
      rewrite Hst. split; [done|]. split; [|done].
      destruct Hprefix as [rest Hrest'].
      assert (Forall (modesAre mode) (deref (store s2) <$> testCases c)) as Hmodes.
      { apply Forall_fmap, Forall_forall. intros tc Htc.
        unfold modesAre, compose, deref. simpl.
        apply Forall_fmap, Forall_forall. intros st Hst'. simpl.
        rewrite Hover, decide_True.
        - unfold allocated in Hall. rewrite Forall_forall in Hall. specialize (Hall tc Htc).
          rewrite Forall_forall in Hall. by destruct (Hall st Hst') as [pc ->].
        - unfold probes. apply list_elem_of_bind. exists tc. split; [|done].
          by apply list_elem_of_fmap_2. }
      rewrite Hrest' in Hmodes. by apply Forall_app in Hmodes as [? _].
    + destruct Hcase as [-> ->]. destruct Hrest as (-> & -> & ->).
      rewrite app_nil_r. by rewrite (executed_none pre Hpre).
Qed.

End Facts.

(** ** The claims on concrete runs *)

Section Concrete.

Import Demo.

(** C1, as stated, fails: the first of two test cases yields a terminal
    error, the run halts on it, and the second test case is never
    executed. *)
Lemma run_aborts_on_first_error :
  let '(r, _, t) := RunGenerateCommand demo refused refusing in
  (generated demo refused (mkPod "10.0.0.3")).1 = [denyAll; allowAll]
  ∧ r = Halted (Fatal "create network policy: forbidden")
  ∧ executed t = [deref demoObjects denyAll].
Proof. vm_compute. by split_and!. Qed.

Lemma terminal_error_ends_run_witness :
  (RunGenerateCommand demo refused refusing).2
  = take 10 (RunGenerateCommand demo refused refusing).2
      ++ CallExecuteTestCase (demoInterpreter refused) (deref demoObjects denyAll)
           (Some "create network policy: forbidden" : Result demoTypes)
      :: []
  ∧ (RunGenerateCommand demo refused refusing).1.1
    = Halted (Fatal "create network policy: forbidden")
  ∧ ([] : list (Event demoTypes)) = [].
Proof.
  assert ((RunGenerateCommand demo refused refusing).2
          = take 10 (RunGenerateCommand demo refused refusing).2
              ++ CallExecuteTestCase (demoInterpreter refused) (deref demoObjects denyAll)
                   (Some "create network policy: forbidden" : Result demoTypes)
              :: []) as Ht.
  { vm_compute. reflexivity. }
  split; [exact Ht|].
  exact (terminal_error_ends_run demo refused refusing _ _ _ _ _ Ht).
Defined.

(** C6, as stated, fails: with [--retries=-1] the first test case is
    executed under a retry count of -1. *)
Lemma negative_retries_reach_interpreter :
  ¬ Forall executesNonNegative (Run demo negative accepting).2.
Proof.
  intros H. rewrite Forall_forall in H.
  specialize (H (CallExecuteTestCase (demoInterpreter (demoArgs negative))
                   (deref demoObjects denyAll) (None : Result demoTypes))).
  assert (0 ≤ -1 ∧ 0 ≤ 5) as [Hneg _]; [|lia].
  apply H. vm_compute. do 10 apply list_elem_of_further. apply list_elem_of_here.
Qed.

Lemma test_cases_run_in_sequence_witness :
  DryRun podIP = false
  ∧ setup demo podIP accepting
    = (Ok (demoSetup podIP), (setup demo podIP accepting).1.2,
       (setup demo podIP accepting).2)
  ∧ ∃ r0 s2,
      overrideDestinationType demo podIP (testCases (demoSetup podIP))
        (setup demo podIP accepting).1.2 = (r0, s2, [])
      ∧ (∃ zcPod, testCases (demoSetup podIP) = (generated demo podIP zcPod).1)
      ∧ let views := deref (store s2) <$> testCases (demoSetup podIP) in
        let '(r, s', t) := RunGenerateCommand demo podIP accepting in
        match r0 with
        | Halted h => r = Halted h ∧ t = (setup demo podIP accepting).2
        | Ok _ =>
            ∃ rl w loop closing,
              t = (setup demo podIP accepting).2 ++ loop ++ closing
              ∧ LoopRun demo (interpreter (demoSetup podIP)) (printer (demoSetup podIP))
                  0 views (world s2) rl w loop
              ∧ executed (setup demo podIP accepting).2 = [] ∧ executed closing = []
              ∧ executed t `prefix_of` views
              ∧ (r = Ok tt → executed t = views)
        end.
Proof.
  assert (setup demo podIP accepting
          = (Ok (demoSetup podIP), (setup demo podIP accepting).1.2,
             (setup demo podIP accepting).2)) as Hs.
  { vm_compute. reflexivity. }
  split; [reflexivity|]. split; [exact Hs|].
  exact (test_cases_run_in_sequence demo podIP accepting _ _ _ eq_refl Hs).
Defined.

Lemma dry_run_only_lists_witness :
  DryRun dry = true
  ∧ let '(r, s', t) := RunGenerateCommand demo dry accepting in
    Forall dryRunEvent t
    ∧ executed t = []
    ∧ match ValidateTags demo (Include dry ++ Exclude dry) with
      | Some e => r = Halted (Fatal e) ∧ s' = accepting ∧ t = [CallRunVersionCommand]
      | None =>
          let '(created, w) :=
            NewDefaultResources demo MockKubernetes (ServerNamespaces dry)
              (ServerPods dry) (ServerPorts dry) (parseProtocols demo (ServerProtocols dry))
              [] (PodCreationTimeoutSeconds dry) (BatchJobs dry) (world accepting) in
          match created with
          | inr e =>
              r = Halted (Fatal e) ∧ s' = mkState w (store accepting)
              ∧ t = dryRunOpening dry
          | inl resources =>
              match GetPod demo resources "z" "c" with
              | inr e =>
                  r = Halted (Fatal e) ∧ s' = mkState w (store accepting)
                  ∧ t = dryRunOpening dry
              | inl zcPod =>
                  r = Ok tt
                  ∧ s' = mkState w (generated demo dry zcPod).2
                  ∧ t = dryRunOpening dry
                        ++ testCaseListing demo (generated demo dry zcPod).1
              end
          end
      end.
Proof.
  split; [reflexivity|].
  exact (dry_run_only_lists demo dry accepting eq_refl).
Defined.

(** C9, as stated, fails: a dry run whose tags are rejected creates no mock
    backend and lists nothing; it does not return, it halts on the error of
    line 77 with the version command as all it has done. *)
Lemma dry_run_halts_on_rejected_tags :
  let '(r, s', t) := RunGenerateCommand demo dryBadTags accepting in
  DryRun dryBadTags = true
  ∧ r = Halted (Fatal "invalid tag")
  ∧ s' = accepting
  ∧ t = [CallRunVersionCommand]
  ∧ (CallNewMockKubernetes ∉ t)
  ∧ Forall (λ e, ∀ text, e ≠ Stdout text) t.
Proof.
  assert (RunGenerateCommand demo dryBadTags accepting
          = (Halted (Fatal "invalid tag"), accepting, [CallRunVersionCommand])) as ->.
  { vm_compute. reflexivity. }
  split_and!; [done | done | done | done | |].
  - by intros ?%list_elem_of_singleton.
  - by constructor.
Qed.

(** C10, as stated, fails: in a dry run the destination type is not empty
    and parses, the run returns (it is not aborted), and the steps keep the
    modes the generator gave them. *)
Lemma dry_run_skips_destination_type :
  let '(r, s', _) := RunGenerateCommand demo dry accepting in
  DestinationType dry = "pod-ip"
  ∧ ParseProbeMode demo (DestinationType dry) = inl "pod-ip"
  ∧ r = Ok tt
  ∧ Steps denyAll = [mkTestStep (T:=demoTypes) 1%positive "create policy deny-all"]
  ∧ Mode <$> store s' !! 1%positive = Some "service-name".
Proof. vm_compute. by split_and!. Qed.

Lemma destination_type_override_witness :
  DryRun podIP = false
  ∧ setup demo podIP accepting
    = (Ok (demoSetup podIP), (setup demo podIP accepting).1.2,
       (setup demo podIP accepting).2)
  ∧ allocated (store (setup demo podIP accepting).1.2) (testCases (demoSetup podIP))
  ∧ let '(r, s', t) := RunGenerateCommand demo podIP accepting in
    if decide (DestinationType podIP = "") then
      store s' = store (setup demo podIP accepting).1.2
      ∧ executed t `prefix_of`
          (deref (store (setup demo podIP accepting).1.2) <$> testCases (demoSetup podIP))
    else
      match ParseProbeMode demo (DestinationType podIP) with
      | inr e =>
          r = Halted (Fatal e) ∧ executed t = []
          ∧ store s' = store (setup demo podIP accepting).1.2
      | inl mode =>
          overwritten mode (probes (testCases (demoSetup podIP)))
            (store (setup demo podIP accepting).1.2) (store s')
          ∧ Forall (modesAre mode) (executed t)
          ∧ executed t `prefix_of` (deref (store s') <$> testCases (demoSetup podIP))
      end.
Proof.
  assert (setup demo podIP accepting
          = (Ok (demoSetup podIP), (setup demo podIP accepting).1.2,
             (setup demo podIP accepting).2)) as Hs.
  { vm_compute. reflexivity. }
  assert (allocated (store (setup demo podIP accepting).1.2) (testCases (demoSetup podIP)))
    as Hall.
  { vm_compute. repeat constructor; by eexists. }
  split; [reflexivity|]. split; [exact Hs|]. split; [exact Hall|].
  exact (destination_type_override demo podIP accepting _ _ _ eq_refl Hs Hall).
Defined.

End Concrete.

End CliFacts.

(** * Facts about the interpreter *)

Module ConnectivityFacts.
Import Cli(error, InterpreterConfig, KubeProbeRetries, ResetClusterBeforeTestCase,
  VerifyClusterStateBeforeTestCase, CfgPerturbationWaitSeconds, CfgIgnoreLoopback, CfgBatchJobs).
Import Connectivity.

Section Facts.

Context (X : Externals).

Lemma effOnly_ret Q {A} (a : A) : effOnly Q (effRet (X:=X) a).
Proof. intros c. constructor. Qed.

Lemma effOnly_emit (Q : StepEvent → Prop) k e : Q (k, e) → effOnly Q (effEmit (X:=X) k e).
Proof. intros H c. by repeat constructor. Qed.

Lemma effOnly_call Q {A} (f : Cluster X → A * Cluster X) : effOnly Q (call f).
Proof. intros c. unfold call. destruct (f c). constructor. Qed.

Lemma effOnly_bind Q {A B} (m : Eff X A) (k : A → Eff X B) :
  effOnly Q m → (∀ a, effOnly Q (k a)) → effOnly Q (m ≫= k).
Proof.
  intros Hm Hk c. unfold mbind, Eff_bind, effBind.
  specialize (Hm c). destruct (m c) as [[a c1] t1].
  specialize (Hk a c1). destruct (k a c1) as [[b c2] t2]. simpl in *.
  by apply Forall_app.
Qed.

Ltac effs :=
  repeat first
    [ apply effOnly_ret | apply effOnly_call
    | apply effOnly_emit; try done
    | apply effOnly_bind; [|intros ?]
    | match goal with |- effOnly _ (match ?x with _ => _ end) => destruct x end ].

Lemma attempt_quiet k n src dst tuple : effOnly (quietAt k) (attempt X k n src dst tuple).
Proof. induction n as [|n IH]; simpl; effs. apply IH. Qed.

Lemma probeCells_quiet cfg k cells : ∀ obs, effOnly (quietAt k) (probeCells X cfg k cells obs).
Proof.
  induction cells as [|c cells IH]; intros obs; simpl; effs.
  - apply attempt_quiet.
  - apply IH.
Qed.

Lemma deletePolicies_quiet k names :
  effOnly (provisioningAt k) (deletePolicies X k names).
Proof. induction names as [|n names IH]; simpl; effs. apply IH. Qed.

Lemma applyMutation_quiet k m : effOnly (provisioningAt k) (applyMutation X k m).
Proof. unfold applyMutation. effs. Qed.

Lemma verifyMutation_quiet k m : effOnly (provisioningAt k) (verifyMutation X k m).
Proof. unfold verifyMutation. effs. Qed.


Ltac forall_events :=
  repeat first
    [ apply Forall_nil; done
    | apply Forall_cons; split; [done|]
    | apply Forall_app; split
    | eapply Forall_impl; [eassumption|];
      unfold quietAt, provisioningAt; intros ? ?; simpl; tauto ].

(** One run of the machine: its calls are the step's own; it either ends in
    [Done] without entering [Failed] and yields the diff of its tables, or
    ends by entering [Failed], without having entered [Probing]. *)
Lemma runStep_inv cfg k st installed c r installed' c' t :
  runStep X cfg k st installed c = ((r, installed'), c', t) →
  Forall (λ ev, ev.1 = k) t
  ∧ match r with
    | inl sr => Forall (quietAt k) t ∧ diffed cfg st sr
    | inr e =>
        (∃ t', t = t' ++ [(k, Enter Failed)])
        ∧ Forall (λ ev, ev.2 ≠ Enter Probing) t
    end.
Proof.
  unfold runStep, failStep, mbind, Eff_bind, effBind, mret, Eff_ret, effRet, effEmit.
  intros H.
  destruct (ResetClusterBeforeTestCase cfg), (VerifyClusterStateBeforeTestCase cfg);
    simpl in H.
  all: repeat match type of H with
  | context [deletePolicies _ ?j ?i ?c0] =>
      pose proof (deletePolicies_quiet j i c0);
      destruct (deletePolicies X j i c0) as [[? ?] ?] eqn:?; simpl in *
  | context [applyMutation _ ?j ?m ?c0] =>
      pose proof (applyMutation_quiet j m c0);
      destruct (applyMutation X j m c0) as [[? ?] ?] eqn:?; simpl in *
  | context [verifyMutation _ ?j ?m ?c0] =>
      pose proof (verifyMutation_quiet j m c0);
      destruct (verifyMutation X j m c0) as [[? ?] ?] eqn:?; simpl in *
  | context [probeCells _ ?cf ?j ?cs ?o ?c0] =>
      pose proof (probeCells_quiet cf j cs o c0);
      destruct (probeCells X cf j cs o c0) as [[? ?] ?] eqn:?; simpl in *
  | context [match ?x with _ => _ end] => is_var x; destruct x; simpl in *
  end.
  all: simplify_eq; simpl.
  all: split; [forall_events|].
  all: try (split; [|by forall_events];
            eexists; rewrite ?app_nil_r, ?app_comm_cons, ?app_assoc; reflexivity).
  all: split; [by forall_events | done].
Qed.

Lemma runSteps_unfold cfg k st steps installed done c :
  runSteps X cfg k (st :: steps) installed done c
  = let '(r, installed', c1, t1) := runStep X cfg k st installed c in
    match r with
    | inl sr =>
        let '(res, c2, t2) := runSteps X cfg (S k) steps installed' (done ++ [sr]) c1 in
        (res, c2, t1 ++ t2)
    | inr e => (mkResult done (Some e), c1, t1 ++ [])
    end.
Proof.
  simpl. unfold mbind, Eff_bind, effBind.
  destruct (runStep X cfg k st installed c) as [[[[sr|e] installed'] c1] t1]; done.
Qed.

(** Steps run in order: from step [k] on, no call of an earlier step. *)
Lemma runSteps_indices cfg steps : ∀ k installed done c,
  Forall (λ ev, k ≤ ev.1)%nat (runSteps X cfg k steps installed done c).2.
Proof.
  induction steps as [|st steps IH]; intros k installed done c.
  - constructor.
  - rewrite runSteps_unfold.
    destruct (runStep X cfg k st installed c) as [[[r installed'] c1] t1] eqn:Hstep.
    apply runStep_inv in Hstep as [Hidx _].
    assert (Forall (λ ev, k ≤ ev.1)%nat t1) as Ht1.
    { eapply Forall_impl; [exact Hidx|]. intros ev ->. done. }
    destruct r as [sr|e]; simpl.
    + specialize (IH (S k) installed' (done ++ [sr]) c1).
      destruct (runSteps X cfg (S k) steps installed' (done ++ [sr]) c1) as [[res c2] t2].
      simpl in *. apply Forall_app. split; [done|].
      eapply Forall_impl; [exact IH|]. simpl. lia.
    + by rewrite app_nil_r.
Qed.

(** Fail-fast: once step [j] has entered [Failed], every call is of step
    [j] or of an earlier one. *)
Lemma runSteps_failfast cfg steps : ∀ k installed done c j,
  (j, Enter Failed) ∈ (runSteps X cfg k steps installed done c).2 →
  Forall (λ ev, ev.1 ≤ j)%nat (runSteps X cfg k steps installed done c).2.
Proof.
  induction steps as [|st steps IH]; intros k installed done c j.
  - simpl. by intros ?%elem_of_nil.
  - rewrite runSteps_unfold.
    destruct (runStep X cfg k st installed c) as [[[r installed'] c1] t1] eqn:Hstep.
    apply runStep_inv in Hstep as [Hidx Hr].
    destruct r as [sr|e]; simpl.
    + destruct Hr as (Hquiet & _).
      pose proof (runSteps_indices cfg steps (S k) installed' (done ++ [sr]) c1) as Hlow.
      specialize (IH (S k) installed' (done ++ [sr]) c1 j).
      destruct (runSteps X cfg (S k) steps installed' (done ++ [sr]) c1) as [[res c2] t2].
      simpl in *. intros [Hin|Hin]%elem_of_app.
      * rewrite Forall_forall in Hquiet. by destruct (Hquiet _ Hin).
      * pose proof Hin as Hj. rewrite Forall_forall in Hlow. apply Hlow in Hj. simpl in Hj.
        apply Forall_app. split; [|by apply IH].
        eapply Forall_impl; [exact Hidx|]. intros ev ->. lia.
    + rewrite app_nil_r. intros Hin.
      rewrite Forall_forall in Hidx. pose proof (Hidx _ Hin) as Hj. simpl in Hj. subst j.
      apply Forall_forall. intros ev Hev. by rewrite (Hidx ev Hev).
Qed.

(** A step that has entered [Probing] does not enter [Failed]: whatever the
    executor does, probing is never fatal. *)
Lemma runSteps_probing cfg steps : ∀ k installed done c j,
  (j, Enter Probing) ∈ (runSteps X cfg k steps installed done c).2 →
  (j, Enter Failed) ∉ (runSteps X cfg k steps installed done c).2.
Proof.
  induction steps as [|st steps IH]; intros k installed done c j.
  - simpl. by intros ?%elem_of_nil.
  - rewrite runSteps_unfold.
    destruct (runStep X cfg k st installed c) as [[[r installed'] c1] t1] eqn:Hstep.
    apply runStep_inv in Hstep as [Hidx Hr].
    rewrite Forall_forall in Hidx.
    destruct r as [sr|e]; simpl.
    + destruct Hr as (Hquiet & _). rewrite Forall_forall in Hquiet.
      pose proof (runSteps_indices cfg steps (S k) installed' (done ++ [sr]) c1) as Hlow.
      rewrite Forall_forall in Hlow.
      specialize (IH (S k) installed' (done ++ [sr]) c1 j).
      destruct (runSteps X cfg (S k) steps installed' (done ++ [sr]) c1) as [[res c2] t2].
      simpl in *. intros Hprobing [Hfailed|Hfailed]%elem_of_app.
      * by destruct (Hquiet _ Hfailed).
      * apply elem_of_app in Hprobing as [Hprobing|Hprobing]; [|by apply IH].
        apply Hidx in Hprobing. apply Hlow in Hfailed. simpl in *. lia.
    + destruct Hr as (_ & Hnone). rewrite Forall_forall in Hnone.
      rewrite app_nil_r. intros Hprobing. by destruct (Hnone _ Hprobing).
Qed.

(** The diff a Result holds for a step is the diff of that step's tables. *)
Lemma runSteps_results cfg steps : ∀ k installed done c,
  ∃ new,
    StepResults (runSteps X cfg k steps installed done c).1.1 = done ++ new
    ∧ match Err (runSteps X cfg k steps installed done c).1.1 with
      | None => Forall2 (diffed cfg) steps new
      | Some _ => Forall2 (diffed cfg) (take (length new) steps) new
                  ∧ (length new < length steps)%nat
      end.
Proof.
  induction steps as [|st steps IH]; intros k installed done c.
  - exists []. simpl. by rewrite app_nil_r.
  - rewrite runSteps_unfold.
    destruct (runStep X cfg k st installed c) as [[[r installed'] c1] t1] eqn:Hstep.
    apply runStep_inv in Hstep as [_ Hr].
    destruct r as [sr|e]; simpl.
    + destruct Hr as (_ & Hd).
      destruct (IH (S k) installed' (done ++ [sr]) c1) as (new & Hres & Herr).
      destruct (runSteps X cfg (S k) steps installed' (done ++ [sr]) c1) as [[res c2] t2].
      simpl in *. exists (sr :: new). split.
      * by rewrite Hres, <- app_assoc.
      * destruct (Err res); simpl.
        -- destruct Herr. split; [by constructor | lia].
        -- by constructor.
    + exists []. simpl. rewrite app_nil_r. split; [done|]. split; [constructor | lia].
Qed.


(** ** Probe Runner *)

Lemma attempt_exhausts k src dst tuple :
  alwaysFails X →
  ∀ n c, ∃ c',
    attempt X k n src dst tuple c
    = (Indeterminate, c',
       replicate (S n) (k, CallExecute src (PodIP dst) (Port tuple) (Proto tuple))).
Proof.
  intros Hfail. induction n as [|n IH]; intros c; simpl;
    unfold mbind, Eff_bind, effBind, effEmit, call;
    destruct (Hfail src (PodIP dst) (Port tuple) (Proto tuple) c) as (e & c1 & ->).
  - by exists c1.
  - destruct (IH c1) as (c2 & ->). by exists c2.
Qed.

(** C2.  With a retry count N that is at least 0 and an executor that
    fails on every attempt, a probe is N+1 calls of the executor, all for
    the probed cell, and nothing else; its outcome is Indeterminate.  It is
    no error of the test case: a step that has entered [Probing] never
    enters [Failed]. *)
Theorem probe_retry_bound cfg k src dst tuple c :
  0 ≤ KubeProbeRetries cfg →
  alwaysFails X →
  (let '(o, _, t) := Probe X cfg k src dst tuple c in
   o = Indeterminate
   ∧ Z.of_nat (length t) = KubeProbeRetries cfg + 1
   ∧ Forall (λ ev, ev = (k, CallExecute src (PodIP dst) (Port tuple) (Proto tuple))) t)
  ∧ ∀ steps c' j,
      (j, Enter Probing) ∈ (ExecuteTestCase X cfg steps c').2 →
      (j, Enter Failed) ∉ (ExecuteTestCase X cfg steps c').2.
Proof.
  intros Hn Hfail. split; [|intros steps c' j; apply runSteps_probing].
  unfold Probe.
  destruct (attempt_exhausts k src dst tuple Hfail (Z.to_nat (KubeProbeRetries cfg)) c)
    as (c' & ->).
  split; [done|]. split.
  - rewrite length_replicate. lia.
  - apply Forall_replicate. done.
Qed.

(** ** Diff *)

Lemma Diff_notLoopback expected observed :
  Forall notLoopback (Diff true expected observed).
Proof.
  apply Forall_forall. intros m Hm. unfold Diff in Hm.
  apply list_elem_of_bind in Hm as (cell & Hm & _).
  unfold isLoopback in Hm. simpl in Hm. case_bool_decide as Hloop.
  - by apply elem_of_nil in Hm.
  - destruct (compareCell _ _); try by apply elem_of_nil in Hm.
    apply list_elem_of_singleton in Hm as ->. exact Hloop.
Qed.

Lemma Forall2_diffed_Forall cfg steps new (Q : list Mismatch → Prop) :
  Forall2 (diffed cfg) steps new →
  (∀ expected observed, Q (Diff (CfgIgnoreLoopback cfg) expected observed)) →
  Forall (λ sr, Q (StepDiff sr)) new.
Proof.
  intros H HQ. induction H as [|st sr steps new [Hd _] _ IH]; constructor; [|done].
  rewrite Hd. apply HQ.
Qed.

Lemma Passed_spec (r : Result) :
  Passed r = true ↔ Err r = None ∧ Forall (λ sr, StepDiff sr = []) (StepResults r).
Proof.
  unfold Passed. destruct (Err r) as [e|].
  - split; [done | by intros [? _]].
  - rewrite <- Is_true_true, forallb_True. split.
    + intros H. split; [done|]. eapply Forall_impl; [exact H|].
      intros sr. simpl. destruct (StepDiff sr); [done | intros []].
    + intros [_ H]. eapply Forall_impl; [exact H|]. by intros sr ->.
Qed.

(** C3.  For a test case executed without a terminal error, the Result
    reports success exactly when, for every step, the diff of the step's
    Expected table and the table observed for it is empty; one mismatched
    cell in one step is enough for failure. *)
Theorem success_iff_diffs_empty cfg steps c :
  let r := (ExecuteTestCase X cfg steps c).1.1 in
  Err r = None →
  (Passed r = true
   ↔ Forall2 (λ st sr, Diff (CfgIgnoreLoopback cfg) (Expected st) (Observed sr) = [])
       steps (StepResults r)).
Proof.
  simpl. intros Herr. unfold ExecuteTestCase in *.
  destruct (runSteps_results cfg steps 0 [] [] c) as (new & Hres & Hnew).
  rewrite Herr in Hnew. simpl in Hres. rewrite Hres.
  rewrite Passed_spec, Hres. split.
  - intros [_ Hall]. clear Hres Herr.
    induction Hnew as [|st sr steps' new' [Hd _] _ IH]; [constructor|].
    apply Forall_cons in Hall as [Hsr Hall]. constructor; [congruence | by apply IH].
  - intros Hall. split; [done|]. clear Hres Herr.
    induction Hnew as [|st sr steps' new' [Hd _] _ IH]; [constructor|].
    apply Forall2_cons in Hall as [Hsr Hall]. constructor; [congruence | by apply IH].
Qed.

(** C4.  With the ignore-loopback argument set, the configuration and the
    printer both carry the option; no diff computed under it has an entry
    whose source is its destination, whatever the two tables hold; and so
    no step of any test case executed under that configuration reports
    one. *)
Theorem loopback_cells_not_in_diff args steps c expected observed :
  Cli.IgnoreLoopback args = true →
  CfgIgnoreLoopback (Cli.newInterpreterConfig args) = true
  ∧ Cli.PrinterIgnoreLoopback (Cli.newPrinter args) = true
  ∧ Forall notLoopback
      (Diff (CfgIgnoreLoopback (Cli.newInterpreterConfig args)) expected observed)
  ∧ Forall (λ sr, Forall notLoopback (StepDiff sr))
      (StepResults (ExecuteTestCase X (Cli.newInterpreterConfig args) steps c).1.1).
Proof.
  intros Hloop. split; [done|]. split; [done|]. split.
  - simpl. rewrite Hloop. apply Diff_notLoopback.
  - unfold ExecuteTestCase.
    destruct (runSteps_results (Cli.newInterpreterConfig args) steps 0 [] [] c)
      as (new & -> & Hnew). simpl.
    assert (∀ e o, Forall notLoopback
              (Diff (CfgIgnoreLoopback (Cli.newInterpreterConfig args)) e o)) as HQ.
    { intros e o. simpl. rewrite Hloop. apply Diff_notLoopback. }
    destruct (Err _).
    + destruct Hnew as [Hnew _]. by eapply Forall2_diffed_Forall.
    + by eapply Forall2_diffed_Forall.
Qed.

(** C5.  Once a step of a test case has entered [Failed], every call the
    interpreter makes for that test case belongs to that step or to an
    earlier one: the provisioner receives no mutation, and nothing else, of
    any later step. *)
Theorem failed_step_stops_test_case cfg steps c j :
  (j, Enter Failed) ∈ (ExecuteTestCase X cfg steps c).2 →
  Forall (λ ev, ev.1 ≤ j)%nat (ExecuteTestCase X cfg steps c).2.
Proof. apply runSteps_failfast. Qed.

End Facts.

(** ** The claims on concrete runs, and the scenarios of the spec *)

Section Concrete.

Import DemoCluster.

(** Scenario A: everything expected reachable, everything connects. *)
Example scenario_A :
  let '(r, _, _) :=
    ExecuteTestCase (cluster connects) (config 1 false)
      [stepWith allowAllPolicy allReachable] ∅ in
  Err r = None ∧ (StepDiff <$> StepResults r) = [[]] ∧ Passed r = true
  ∧ ((λ sr, forallb (λ cell, bool_decide (Get (Observed sr) cell = Some Reachable))
              (Cells (Observed sr))) <$> StepResults r) = [true].
Proof. vm_compute. done. Qed.

(** Scenario B: x/a to y/b expected denied, yet it connects. *)
Example scenario_B :
  let '(r, _, _) :=
    ExecuteTestCase (cluster connects) (config 1 false)
      [stepWith allowAllPolicy denyXaYb] ∅ in
  (StepDiff <$> StepResults r)
  = [[mkMismatch xa yb tcp80 (Some false) (Some Reachable)]]
  ∧ Passed r = false.
Proof. vm_compute. done. Qed.

(** Scenario C: two retries, x/a to y/b fails on all three attempts. *)
Example scenario_C :
  let '(r, _, t) :=
    ExecuteTestCase (cluster flakyXaYb) (config 2 false)
      [stepWith allowAllPolicy allReachable] ∅ in
  (StepDiff <$> StepResults r) = [[]]
  ∧ (StepWarnings <$> StepResults r)
    = [[mkMismatch xa yb tcp80 (Some true) (Some Indeterminate)]]
  ∧ Passed r = true
  ∧ length (filter (λ ev, ev = (0%nat, CallExecute xa (PodIP yb) 80 TCP)) t) = 3%nat.
Proof. vm_compute. done. Qed.

(** A loopback cell that differs is in the diff as long as the option is off. *)
Example loopback_reported_by_default :
  (Diff false allReachable
     (foldl (λ t c, WriteCell t c (outcomeOf (negb (isLoopback c))))
        (NewTruthTable [xa; yb; zc] [tcp80]) (Cells allReachable)))
  = [mkMismatch xa xa tcp80 (Some true) (Some Unreachable);
     mkMismatch yb yb tcp80 (Some true) (Some Unreachable);
     mkMismatch zc zc tcp80 (Some true) (Some Unreachable)].
Proof. vm_compute. done. Qed.

Lemma breaks_alwaysFails : alwaysFails (cluster breaks).
Proof. intros src ip port proto c. by eexists _, c. Defined.

Lemma probe_retry_bound_witness :
  0 ≤ KubeProbeRetries (config 2 false)
  ∧ alwaysFails (cluster breaks)
  ∧ (let '(o, _, t) := Probe (cluster breaks) (config 2 false) 0 xa yb tcp80 ∅ in
     o = Indeterminate
     ∧ Z.of_nat (length t) = KubeProbeRetries (config 2 false) + 1
     ∧ Forall (λ ev, ev = (0%nat, CallExecute xa (PodIP yb) (Port tcp80) (Proto tcp80))) t)
  ∧ ∀ steps c' j,
      (j, Enter Probing) ∈ (ExecuteTestCase (cluster breaks) (config 2 false) steps c').2 →
      (j, Enter Failed) ∉ (ExecuteTestCase (cluster breaks) (config 2 false) steps c').2.
Proof.
  assert (0 ≤ KubeProbeRetries (config 2 false)) as Hn by (simpl; lia).
  split; [exact Hn|]. split; [exact breaks_alwaysFails|].
  exact (probe_retry_bound (cluster breaks) (config 2 false) 0 xa yb tcp80 ∅
           Hn breaks_alwaysFails).
Defined.

Lemma success_iff_diffs_empty_witness :
  Err (ExecuteTestCase (cluster connects) (config 1 false)
         [stepWith allowAllPolicy allReachable] ∅).1.1 = None
  ∧ (Passed (ExecuteTestCase (cluster connects) (config 1 false)
               [stepWith allowAllPolicy allReachable] ∅).1.1 = true
     ↔ Forall2 (λ st sr, Diff (CfgIgnoreLoopback (config 1 false))
                           (Expected st) (Observed sr) = [])
         [stepWith allowAllPolicy allReachable]
         (StepResults (ExecuteTestCase (cluster connects) (config 1 false)
                         [stepWith allowAllPolicy allReachable] ∅).1.1)).
Proof.
  assert (Err (ExecuteTestCase (cluster connects) (config 1 false)
                 [stepWith allowAllPolicy allReachable] ∅).1.1 = None) as Herr.
  { vm_compute. reflexivity. }
  split; [exact Herr|].
  exact (success_iff_diffs_empty (cluster connects) (config 1 false)
           [stepWith allowAllPolicy allReachable] ∅ Herr).
Defined.

Lemma loopback_cells_not_in_diff_witness :
  Cli.IgnoreLoopback (Demo.demoArgs [Cli.FlagIgnoreLoopback true]) = true
  ∧ CfgIgnoreLoopback
      (Cli.newInterpreterConfig (Demo.demoArgs [Cli.FlagIgnoreLoopback true])) = true
  ∧ Cli.PrinterIgnoreLoopback
      (Cli.newPrinter (Demo.demoArgs [Cli.FlagIgnoreLoopback true])) = true
  ∧ Forall notLoopback
      (Diff (CfgIgnoreLoopback
               (Cli.newInterpreterConfig (Demo.demoArgs [Cli.FlagIgnoreLoopback true])))
         allReachable (NewTruthTable [xa; yb; zc] [tcp80]))
  ∧ Forall (λ sr, Forall notLoopback (StepDiff sr))
      (StepResults
         (ExecuteTestCase (cluster refusesLoopback)
            (Cli.newInterpreterConfig (Demo.demoArgs [Cli.FlagIgnoreLoopback true]))
            [stepWith allowAllPolicy allReachable] ∅).1.1).
Proof.
  split; [reflexivity|].
  exact (loopback_cells_not_in_diff (cluster refusesLoopback)
           (Demo.demoArgs [Cli.FlagIgnoreLoopback true])
           [stepWith allowAllPolicy allReachable] ∅
           allReachable (NewTruthTable [xa; yb; zc] [tcp80]) eq_refl).
Defined.

Lemma failed_step_stops_test_case_witness :
  (0%nat, Enter Failed)
    ∈ (ExecuteTestCase (cluster connects) (config 1 false)
         [stepWith rejectedPolicy allReachable; stepWith allowAllPolicy allReachable] ∅).2
  ∧ Forall (λ ev, ev.1 ≤ 0)%nat
      (ExecuteTestCase (cluster connects) (config 1 false)
         [stepWith rejectedPolicy allReachable; stepWith allowAllPolicy allReachable] ∅).2.
Proof.
  assert ((0%nat, Enter Failed)
    ∈ (ExecuteTestCase (cluster connects) (config 1 false)
         [stepWith rejectedPolicy allReachable; stepWith allowAllPolicy allReachable] ∅).2)
    as Hin.
  { vm_compute. do 4 apply list_elem_of_further. apply list_elem_of_here. }
  split; [exact Hin|].
  exact (failed_step_stops_test_case (cluster connects) (config 1 false) _ ∅ 0%nat Hin).
Defined.

End Concrete.

End ConnectivityFacts.

(** * More facts about [RunGenerateCommand] *)

Module CliMore.
Import Cli CliFacts.

Section More.

Context {T : Types} (P : Packages T).

Ltac emits :=
  repeat first
    [ apply emitsOnly_ret | apply emitsOnly_halt | apply emitsOnly_callWorld
    | apply emitsOnly_getStore | apply emitsOnly_setStore
    | apply emitsOnly_DoOrDie | apply emitsOnly_orDie
    | apply emitsOnly_emit; try done
    | apply emitsOnly_bind; [|intros ?]
    | apply emitsOnly_forRange; intros ? ?
    | progress unfold printf
    | match goal with |- emitsOnly _ (match ?x with _ => _ end) => destruct x end ].

(** ** The backend, lines 81 to 91 *)

Lemma newKubernetes_mock args s :
  Mock args || DryRun args = true →
  newKubernetes P args s = (Ok MockKubernetes, s, [CallNewMockKubernetes]).
Proof. intros H. unfold newKubernetes. by rewrite H. Qed.

Lemma newKubernetes_cluster args s :
  Mock args || DryRun args = false →
  newKubernetes P args s
  = match NewKubernetesForContext P (Context args) (world s) with
    | (inr e, w1) =>
        (Halted (Fatal e), mkState w1 (store s),
         [CallNewKubernetesForContext (Context args)])
    | (inl client, w1) =>
        match ServerVersion P client w1 with
        | (inr e, w2) =>
            (Halted (Fatal e), mkState w2 (store s),
             [CallNewKubernetesForContext (Context args); CallServerVersion])
        | (inl info, w2) =>
            (Ok (ClusterKubernetes client), mkState w2 (store s),
             [CallNewKubernetesForContext (Context args); CallServerVersion;
              Stdout ("Kubernetes server version: " +:+ nl +:+ info +:+ nl)])
        end
    end.
Proof.
  intros H. unfold newKubernetes. rewrite H.
  unfold mbind, M_bind, bind, callWorld, orDie, emit, printf, ret, halt. simpl.
  destruct (NewKubernetesForContext P (Context args) (world s)) as [[client|e] w1];
    [|done]. simpl.
  by destruct (ServerVersion P client w1) as [[info|e] w2].
Qed.

(** ** The setup, lines 75 to 125 *)

Lemma setup_events args : emitsOnly setupEvent (setup P args).
Proof. unfold setup, newKubernetes, printTestCases. emits. Qed.

(** The setup, step by step. *)
Lemma setup_unfold args s :
  setup P args s
  = match ValidateTags P (Include args ++ Exclude args) with
    | Some e => (Halted (Fatal e), s, [CallRunVersionCommand])
    | None =>
        match newKubernetes P args s with
        | (Halted h, s0, bt) => (Halted h, s0, CallRunVersionCommand :: bt)
        | (Ok k, s0, bt) =>
            let creation :=
              CallNewDefaultResources k (ServerNamespaces args) (ServerPods args)
                (ServerPorts args) (PodCreationTimeoutSeconds args) (BatchJobs args) in
            match NewDefaultResources P k (ServerNamespaces args) (ServerPods args)
                    (ServerPorts args) (parseProtocols P (ServerProtocols args)) []
                    (PodCreationTimeoutSeconds args) (BatchJobs args) (world s0) with
            | (inr e, w) =>
                (Halted (Fatal e), mkState w (store s0),
                 CallRunVersionCommand :: bt ++ [creation])
            | (inl resources, w) =>
                match GetPod P resources "z" "c" with
                | inr e =>
                    (Halted (Fatal e), mkState w (store s0),
                     CallRunVersionCommand :: bt ++ [creation])
                | inl zcPod =>
                    (Ok (mkSetup k (mkInterpreter k resources (newInterpreterConfig args))
                           (newPrinter args) (generated P args zcPod).1),
                     mkState w (generated P args zcPod).2,
                     CallRunVersionCommand :: bt ++ creation
                       :: testCaseListing P (generated P args zcPod).1)
                end
            end
        end
    end.
Proof.
  unfold setup, DoOrDie, orDie, callWorld, mbind, M_bind, bind,
    mret, M_ret, ret, halt, emit, setStore, generated. simpl.
  destruct (ValidateTags P (Include args ++ Exclude args)); [done|]. simpl.
  destruct (newKubernetes P args s) as [[[k|h] s0] bt]; [|by rewrite ?app_nil_r]. simpl.
  destruct (NewDefaultResources P k _ _ _ _ _ _ _ (world s0)) as [[resources|e] w];
    simpl; [|by rewrite ?app_nil_r].
  destruct (GetPod P resources "z" "c") as [zcPod|e]; simpl; [|by rewrite ?app_nil_r].
  destruct (GenerateTestCases P _ _ _ _ _) as [tcs objects]. simpl.
  rewrite printTestCases_run. simpl. by rewrite ?app_nil_r.
Qed.


(** ** The closing, lines 151 to 161 *)

Lemma cleanupNamespace_run k ns s :
  cleanupNamespace P k ns s
  = let '(err, w) := DeleteNamespace P k ns (world s) in
    (Ok tt, mkState w (store s),
     LogInfo ("cleaning up namespace " +:+ ns) :: CallDeleteNamespace k ns
       :: match err with Some e => [LogWarn e] | None => [] end).
Proof.
  unfold cleanupNamespace, mbind, M_bind, bind, callWorld, emit, ret. simpl.
  by destruct (DeleteNamespace P k ns (world s)) as [[e|] w].
Qed.

(** The cleanup loop returns whatever [DeleteNamespace] answers, and calls
    it once for each namespace, in order, on the one backend. *)
Lemma cleanup_run k nss : ∀ i s,
  ∃ s' cl,
    forRange (λ _ ns, cleanupNamespace P k ns) i nss s = (Ok tt, s', cl)
    ∧ store s' = store s
    ∧ Forall (cleanupEvent k) cl
    ∧ deleted cl = (λ ns, (k, ns)) <$> nss.
Proof.
  induction nss as [|ns nss IH]; intros i s; simpl.
  - by exists s, [].
  - unfold mbind, M_bind, bind. rewrite cleanupNamespace_run.
    destruct (DeleteNamespace P k ns (world s)) as [err w] eqn:Hdel.
    destruct (IH (S i) (mkState w (store s))) as (s' & cl & Hrun & Hst & Hev & Hdeleted).
    rewrite Hrun. eexists _, _. split; [done|]. split; [done|]. split.
    + constructor; [done|]. constructor; [done|]. apply Forall_app. split; [|done].
      destruct err; by repeat constructor.
    + unfold deleted in *. simpl. rewrite omap_app, Hdeleted. by destruct err.
Qed.

(** ** The shape of a run *)

(** Every run is one of: a setup that halts; a dry run, which is its
    setup; an override that halts; a loop that halts; or a loop that
    returns, followed by the summary and the cleanup. *)
Lemma run_shape args s r s' t :
  RunGenerateCommand P args s = (r, s', t) →
  match setup P args s with
  | (Halted h, s1, pre) => r = Halted h ∧ s' = s1 ∧ t = pre
  | (Ok c, s1, pre) =>
      if DryRun args then r = Ok tt ∧ s' = s1 ∧ t = pre
      else
        ∃ r0 s2,
          overrideDestinationType P args (testCases c) s1 = (r0, s2, [])
          ∧ match r0 with
            | Halted h => r = Halted h ∧ s' = s2 ∧ t = pre
            | Ok _ =>
                ∃ rl w loop,
                  LoopRun P (interpreter c) (printer c) 0
                    (deref (store s2) <$> testCases c) (world s2) rl w loop
                  ∧ store s' = store s2
                  ∧ match rl with
                    | Halted h => r = Halted h ∧ t = pre ++ loop
                    | Ok _ =>
                        ∃ cl,
                          r = Ok tt
                          ∧ t = pre ++ loop ++ CallPrintSummary (printer c) :: cl
                          ∧ Forall (cleanupEvent (kubernetes c)) cl
                          ∧ deleted cl
                            = if CleanupNamespaces args
                              then (λ ns, (kubernetes c, ns)) <$> ServerNamespaces args
                              else []
                    end
            end
  end.
Proof.
  unfold RunGenerateCommand, mbind, M_bind, bind. intros Hrun.
  destruct (setup P args s) as [[[c|h] s1] pre]; [|by injection Hrun as <- <- <-].
  destruct (DryRun args).
  { injection Hrun as <- <- <-. by rewrite app_nil_r. }
  destruct (execute P args c s1) as [[r1 s3] post] eqn:Hex. injection Hrun as <- <- <-.
  unfold execute in Hex.
  pose proof (emitsOnly_nothing _ s1 (override_silent P args (testCases c))) as Hsilent.
  apply bind_inv in Hex as [(a & s2 & t1 & t2 & Hov & Hex & Ht)|(h & Hov & Hr)];
    rewrite Hov in Hsilent; simpl in Hsilent; subst.
  2: { exists (Halted h), s3. by rewrite app_nil_r. }
  exists (Ok a), s2. split; [done|]. simpl.
  apply bind_inv in Hex as [(a' & s4 & t3 & t4 & Hloop & Hex & Ht)|(h & Hloop & Hr)];
    apply loop_run in Hloop as [Hloop Hst]; subst.
  2: { by exists (Halted h), (world s3), t2. }
  exists (Ok a'), (world s4), t3. split; [done|].
  unfold mbind, M_bind, bind, emit in Hex. simpl in Hex.
  destruct (CleanupNamespaces args).
  - destruct (cleanup_run (kubernetes c) (ServerNamespaces args) 0%nat s4)
      as (s5 & cl & Hcl & Hst5 & Hev & Hdel).
    rewrite Hcl in Hex. injection Hex as <- <- <-.
    split; [congruence|]. by exists cl.
  - injection Hex as <- <- <-. split; [done|]. by exists [].
Qed.


(** ** Reading calls off a trace *)

Lemma omap_none {B} (f : Event T → option B) (t : list (Event T)) :
  Forall (λ e, f e = None) t → omap f t = [].
Proof. induction 1 as [|e t He _ IH]; [done|]. simpl. by rewrite He. Qed.

Lemma setup_no_results (t : list (Event T)) :
  Forall setupEvent t →
  results t = [] ∧ printed t = [] ∧ summaries t = [] ∧ deleted t = [] ∧ executed t = [].
Proof.
  intros H. split_and!; try (apply omap_none; eapply Forall_impl; [exact H|]; by intros []).
  apply executed_none. eapply Forall_impl; [exact H|]. by intros [].
Qed.

Lemma cleanup_no_results k (t : list (Event T)) :
  Forall (cleanupEvent k) t →
  results t = [] ∧ printed t = [] ∧ summaries t = [] ∧ executed t = [].
Proof.
  intros H. split_and!; try (apply omap_none; eapply Forall_impl; [exact H|]; by intros []).
  apply executed_none. eapply Forall_impl; [exact H|]. by intros [].
Qed.

Lemma loop_events interp pr i views w r w' t :
  LoopRun P interp pr i views w r w' t → Forall (loopEvent P interp pr) t.
Proof.
  induction 1 as [i w|i v vs w res w' e Hex Herr|i v vs w res w' r w'' t Hex Herr _ IH].
  - constructor.
  - by repeat constructor.
  - by repeat (constructor; [done|]).
Qed.

Lemma loop_no_closing interp pr (t : list (Event T)) :
  Forall (loopEvent P interp pr) t → summaries t = [] ∧ deleted t = [].
Proof.
  intros H. split; apply omap_none; (eapply Forall_impl; [exact H|]); by intros [].
Qed.

(** In the loop, the Results printed are the Results executed that carry no
    terminal error; all of them when the loop returns, and then one per
    test case. *)
Lemma loop_printed interp pr i views w r w' t :
  LoopRun P interp pr i views w r w' t →
  printed t = filter (λ res, Err P res = None) (results t)
  ∧ (r = Ok tt → printed t = results t ∧ length (executed t) = length views).
Proof.
  induction 1 as [i w|i v vs w res w' e Hex Herr|i v vs w res w' r w'' t Hex Herr _ [IH1 IH2]].
  - done.
  - split; [|done]. unfold printed, results. simpl.
    rewrite filter_cons_False; [done|]. by rewrite Herr.
  - unfold printed, results in *. simpl. split.
    + rewrite filter_cons_True by done. f_equal. exact IH1.
    + intros Hr. destruct (IH2 Hr) as [IHp IHl]. split; [f_equal; exact IHp|].
      f_equal. exact IHl.
Qed.

(** Every backend event of a run is on [k], once the setup's are and the
    setup hands [k] on. *)
Lemma run_onBackend k args s :
  Forall (onBackend k) (setup P args s).2 →
  (∀ c, (setup P args s).1.1 = Ok c →
        kubernetes c = k ∧ InterpKubernetes (interpreter c) = k) →
  Forall (onBackend k) (RunGenerateCommand P args s).2.
Proof.
  intros Hpre Hk.
  destruct (RunGenerateCommand P args s) as [[r s'] t] eqn:Hrun. simpl.
  apply run_shape in Hrun.
  destruct (setup P args s) as [[[c|h] s1] pre]; simpl in *;
    [|by destruct Hrun as (_ & _ & ->)].
  destruct (Hk c eq_refl) as [Hkc Hki].
  destruct (DryRun args); [by destruct Hrun as (_ & _ & ->)|].
  destruct Hrun as (r0 & s2 & _ & Hrun).
  destruct r0 as [[]|h]; [|by destruct Hrun as (_ & _ & ->)].
  destruct Hrun as (rl & w & loop & Hloop & _ & Hrun).
  apply loop_events in Hloop.
  assert (Forall (onBackend k) loop) as Hl.
  { eapply Forall_impl; [exact Hloop|]. intros [] He; try done. simpl in *. by subst. }
  destruct rl as [[]|h].
  - destruct Hrun as (cl & _ & -> & Hcl & _).
    apply Forall_app. split; [done|]. apply Forall_app. split; [done|].
    constructor; [done|]. eapply Forall_impl; [exact Hcl|].
    intros [] He; try done. simpl in *. by subst.
  - destruct Hrun as (_ & ->). by apply Forall_app.
Qed.


Lemma listing_Forall (Q : Event T → Prop) tcs :
  (∀ text, Q (Stdout text)) → Forall Q (testCaseListing P tcs).
Proof.
  intros HQ. unfold testCaseListing. constructor; [done|]. apply Forall_app. split.
  - induction (CountTestCasesByTag P tcs) as [|[tag n] rest IH]; simpl; by constructor.
  - constructor; [done|]. generalize 0%nat.
    induction tcs as [|tc rest IH]; intros i; simpl; by constructor.
Qed.

Ltac listing_tail :=
  match goal with
  | |- Forall ?Q (tagCountLines (CountTestCasesByTag P ?l) ++ _) =>
      let Hl := fresh in
      assert (Forall Q (testCaseListing P l)) as Hl by (by apply listing_Forall);
      by inversion Hl
  end.

(** What a setup that returns has built. *)
Lemma setup_ok args s c s1 pre :
  setup P args s = (Ok c, s1, pre) →
  ∃ resources zcPod,
    GetPod P resources "z" "c" = inl zcPod
    ∧ interpreter c
      = mkInterpreter (kubernetes c) resources (newInterpreterConfig args)
    ∧ printer c = newPrinter args
    ∧ testCases c = (generated P args zcPod).1
    ∧ store s1 = (generated P args zcPod).2
    ∧ ∃ before, pre = before ++ testCaseListing P (testCases c).
Proof.
  rewrite setup_unfold. intros H.
  repeat case_match; cbv zeta in *; simplify_eq.
  eexists _, _. split; [done|]. do 4 (split; [done|]).
  simpl. eexists (_ :: _ ++ [_]). simpl. rewrite <- app_assoc. reflexivity.
Qed.

Lemma run_extends_setup args s :
  ∃ post, (RunGenerateCommand P args s).2 = (setup P args s).2 ++ post.
Proof.
  destruct (RunGenerateCommand P args s) as [[r s'] t] eqn:Hrun. simpl.
  apply run_shape in Hrun.
  destruct (setup P args s) as [[[c|h] s1] pre]; simpl;
    [|destruct Hrun as (_ & _ & ->); exists []; by rewrite app_nil_r].
  destruct (DryRun args);
    [destruct Hrun as (_ & _ & ->); exists []; by rewrite app_nil_r|].
  destruct Hrun as (r0 & s2 & _ & Hrun).
  destruct r0 as [[]|h];
    [|destruct Hrun as (_ & _ & ->); exists []; by rewrite app_nil_r].
  destruct Hrun as (rl & w & loop & _ & _ & Hrun).
  destruct rl as [[]|h].
  - destruct Hrun as (cl & _ & -> & _). by eexists.
  - destruct Hrun as (_ & ->). by eexists.
Qed.

(** ** Properties of the command *)

(** X1.  With [--mock] or [--dry-run], every backend a run creates or uses
    is the mock: no cluster client is created, the server version is not
    asked for, and resources, executions and namespace deletions are all on
    the mock. *)
Theorem mock_run_stays_on_mock args s :
  Mock args || DryRun args = true →
  Forall (onBackend MockKubernetes) (RunGenerateCommand P args s).2.
Proof.
  intros Hmock. apply run_onBackend; rewrite setup_unfold, newKubernetes_mock by done.
  - repeat case_match; simpl; repeat (constructor; [done|]); try done.
    listing_tail.
  - intros c. repeat case_match; simpl; try done. by intros [= <-].
Qed.

(** X2.  Without [--mock] and [--dry-run], and with valid tags, the first
    thing a run does after printing the version is to create the client for
    [--context] and ask the cluster for its version.  If either fails the
    run halts on that error, having created nothing; otherwise the version
    is printed, resources are created on that client, and every later use
    of a backend is of that same client. *)
Theorem cluster_is_contacted_first args s :
  Mock args || DryRun args = false →
  ValidateTags P (Include args ++ Exclude args) = None →
  let '(r, s', t) := RunGenerateCommand P args s in
  match NewKubernetesForContext P (Context args) (world s) with
  | (inr e, w1) =>
      r = Halted (Fatal e) ∧ s' = mkState w1 (store s)
      ∧ t = [CallRunVersionCommand; CallNewKubernetesForContext (Context args)]
  | (inl client, w1) =>
      match ServerVersion P client w1 with
      | (inr e, w2) =>
          r = Halted (Fatal e) ∧ s' = mkState w2 (store s)
          ∧ t = [CallRunVersionCommand; CallNewKubernetesForContext (Context args);
                 CallServerVersion]
      | (inl info, w2) =>
          (∃ rest,
             t = CallRunVersionCommand :: CallNewKubernetesForContext (Context args)
                 :: CallServerVersion
                 :: Stdout ("Kubernetes server version: " +:+ nl +:+ info +:+ nl)
                 :: CallNewDefaultResources (ClusterKubernetes client)
                      (ServerNamespaces args) (ServerPods args) (ServerPorts args)
                      (PodCreationTimeoutSeconds args) (BatchJobs args)
                 :: rest)
          ∧ Forall (onBackend (ClusterKubernetes client)) t
      end
  end.
Proof.
  intros Hreal Htags.
  pose proof (run_onBackend) as Hback.
  destruct (RunGenerateCommand P args s) as [[r s'] t] eqn:Hrun.
  pose proof (run_shape _ _ _ _ _ Hrun) as Hshape.
  rewrite setup_unfold, Htags, newKubernetes_cluster in Hshape by done.
  destruct (NewKubernetesForContext P (Context args) (world s)) as [[client|e] w1] eqn:Hnew;
    [|by destruct Hshape as (-> & -> & ->)].
  destruct (ServerVersion P client w1) as [[info|e] w2] eqn:Hver;
    [|by destruct Hshape as (-> & -> & ->)].
  split.
  - destruct (run_extends_setup args s) as [post Hpost].
    rewrite Hrun, setup_unfold, Htags, newKubernetes_cluster, Hnew, Hver in Hpost by done.
    simpl in Hpost. rewrite Hpost.
    repeat case_match; simpl; by eexists.
  - specialize (Hback (ClusterKubernetes client) args s).
    rewrite Hrun in Hback. simpl in Hback. clear Hshape.
    apply Hback; rewrite setup_unfold, Htags, newKubernetes_cluster, Hnew, Hver by done.
    + repeat case_match; simpl; repeat (constructor; [done|]); try done.
      listing_tail.
    + intros c. repeat case_match; simpl; try done. by intros [= <-].
Qed.

(** X3.  Tags are validated before anything else is done: if the include
    and exclude tags, taken together, are rejected, the run halts on that
    error right after printing the version, whatever the other arguments
    are; no backend is created and the state is untouched. *)
Theorem invalid_tags_halt_first args s e :
  ValidateTags P (Include args ++ Exclude args) = Some e →
  RunGenerateCommand P args s = (Halted (Fatal e), s, [CallRunVersionCommand]).
Proof.
  intros Htags. unfold RunGenerateCommand, mbind, M_bind, bind.
  by rewrite setup_unfold, Htags.
Qed.

(** X4.  No test case is executed unless the resources the interpreter
    holds contain the pod "c" of namespace "z", whatever namespaces and
    pods the arguments name. *)
Theorem executions_have_pod_zc args s :
  Forall (hasPodZC P) (RunGenerateCommand P args s).2.
Proof.
  destruct (RunGenerateCommand P args s) as [[r s'] t] eqn:Hrun. simpl.
  apply run_shape in Hrun.
  pose proof (setup_events args s) as Hpre.
  assert (∀ t', Forall setupEvent t' → Forall (hasPodZC P) t') as Hsetup.
  { intros t' H. eapply Forall_impl; [exact H|]. by intros []. }
  destruct (setup P args s) as [[[c|h] s1] pre] eqn:Hs; simpl in *;
    [|destruct Hrun as (_ & _ & ->); by apply Hsetup].
  apply setup_ok in Hs as (resources & zcPod & Hpod & Hi & _).
  destruct (DryRun args); [destruct Hrun as (_ & _ & ->); by apply Hsetup|].
  destruct Hrun as (r0 & s2 & _ & Hrun).
  destruct r0 as [[]|h]; [|destruct Hrun as (_ & _ & ->); by apply Hsetup].
  destruct Hrun as (rl & w' & loop & Hloop & _ & Hrun).
  apply loop_events in Hloop.
  assert (Forall (hasPodZC P) loop) as Hl.
  { eapply Forall_impl; [exact Hloop|]. intros [] He; try done. simpl in *. subst.
    rewrite Hi. simpl. by eexists. }
  destruct rl as [[]|h].
  - destruct Hrun as (cl & _ & -> & Hcl & _).
    apply Forall_app. split; [by apply Hsetup|]. apply Forall_app. split; [done|].
    constructor; [done|]. eapply Forall_impl; [exact Hcl|]. by intros [].
  - destruct Hrun as (_ & ->). apply Forall_app. split; [by apply Hsetup | done].
Qed.

(** X5.  Every call on the printer in a run is on the one printer built
    from the arguments ([--noisy], [--ignore-loopback]), and no Result with
    a terminal error is ever handed to it. *)
Theorem printer_sees_no_error args s :
  Forall (printsWith P (newPrinter args)) (RunGenerateCommand P args s).2.
Proof.
  destruct (RunGenerateCommand P args s) as [[r s'] t] eqn:Hrun. simpl.
  apply run_shape in Hrun.
  pose proof (setup_events args s) as Hpre.
  assert (∀ t', Forall setupEvent t' → Forall (printsWith P (newPrinter args)) t')
    as Hsetup.
  { intros t' H. eapply Forall_impl; [exact H|]. by intros []. }
  destruct (setup P args s) as [[[c|h] s1] pre] eqn:Hs; simpl in *;
    [|destruct Hrun as (_ & _ & ->); by apply Hsetup].
  apply setup_ok in Hs as (resources & zcPod & _ & _ & Hpr & _).
  destruct (DryRun args); [destruct Hrun as (_ & _ & ->); by apply Hsetup|].
  destruct Hrun as (r0 & s2 & _ & Hrun).
  destruct r0 as [[]|h]; [|destruct Hrun as (_ & _ & ->); by apply Hsetup].
  destruct Hrun as (rl & w' & loop & Hloop & _ & Hrun).
  apply loop_events in Hloop. rewrite Hpr in *.
  assert (Forall (printsWith P (newPrinter args)) loop) as Hl.
  { eapply Forall_impl; [exact Hloop|]. by intros []. }
  destruct rl as [[]|h].
  - destruct Hrun as (cl & _ & -> & Hcl & _).
    apply Forall_app. split; [by apply Hsetup|]. apply Forall_app. split; [done|].
    constructor; [done|]. eapply Forall_impl; [exact Hcl|]. by intros [].
  - destruct Hrun as (_ & ->). apply Forall_app. split; [by apply Hsetup | done].
Qed.

(** What a run executed, printed, summarised and deleted. *)
Lemma run_readings args s :
  let '(r, _, t) := RunGenerateCommand P args s in
  printed t = filter (λ res, Err P res = None) (results t)
  ∧ (r = Ok tt → printed t = results t)
  ∧ summaries t = (if completed args r then [newPrinter args] else [])
  ∧ ∃ k, deleted t
         = if completed args r && CleanupNamespaces args
           then (λ ns, (k, ns)) <$> ServerNamespaces args else [].
Proof.
  destruct (RunGenerateCommand P args s) as [[r s'] t] eqn:Hrun.
  apply run_shape in Hrun.
  pose proof (setup_events args s) as Hpre.
  destruct (setup P args s) as [[[c|h] s1] pre] eqn:Hs; simpl in *.
  2: { destruct Hrun as (-> & _ & ->).
       destruct (setup_no_results _ Hpre) as (-> & -> & -> & -> & _).
       split_and!; try done. by exists MockKubernetes. }
  destruct (setup_no_results _ Hpre) as (Hres & Hprt & Hsum & Hdel & _).
  apply setup_ok in Hs as (resources & zcPod & _ & _ & Hpr & _).
  unfold completed. destruct (DryRun args); simpl.
  { destruct Hrun as (-> & _ & ->). rewrite Hres, Hprt, Hsum, Hdel.
    split_and!; try done. by exists MockKubernetes. }
  destruct Hrun as (r0 & s2 & _ & Hrun).
  destruct r0 as [[]|h].
  2: { destruct Hrun as (-> & _ & ->). rewrite Hres, Hprt, Hsum, Hdel.
       split_and!; try done. by exists MockKubernetes. }
  destruct Hrun as (rl & w' & loop & Hloop & _ & Hrun).
  pose proof (loop_printed _ _ _ _ _ _ _ _ Hloop) as [Hlp Hlall].
  pose proof (loop_no_closing _ _ _ (loop_events _ _ _ _ _ _ _ _ Hloop)) as [Hls Hld].
  unfold results, printed, summaries, deleted in *.
  destruct rl as [[]|h].
  - destruct Hrun as (cl & -> & -> & Hcl & Hcldel).
    destruct (cleanup_no_results _ _ Hcl) as (Hcr & Hcp & Hcs & _).
    unfold results, printed, summaries, deleted in *.
    change (CallPrintSummary (printer c) :: cl) with ([CallPrintSummary (printer c)] ++ cl).
    rewrite !omap_app.
    rewrite Hres, Hprt, Hsum, Hdel, Hcr, Hcp, Hcs, Hls, Hld, Hcldel. simpl.
    rewrite !app_nil_r.
    split; [done|]. split; [intros _; by apply Hlall|]. split; [by rewrite Hpr|].
    exists (kubernetes c). by destruct (CleanupNamespaces args).
  - destruct Hrun as (-> & ->). rewrite !omap_app.
    rewrite Hres, Hprt, Hsum, Hdel, Hls, Hld. simpl.
    split_and!; try done. by exists MockKubernetes.
Qed.

(** X6.  The Results a run hands to [PrintTestCaseResult] are, in order,
    exactly the Results [ExecuteTestCase] returned that carry no terminal
    error; when the run returns they are all the Results it got. *)
Theorem printed_are_the_error_free_results args s :
  let '(r, _, t) := RunGenerateCommand P args s in
  printed t = filter (λ res, Err P res = None) (results t)
  ∧ (r = Ok tt → printed t = results t).
Proof.
  pose proof (run_readings args s) as H.
  destruct (RunGenerateCommand P args s) as [[r s'] t]. by destruct H as (? & ? & _).
Qed.

(** X7.  [PrintSummary] is called exactly once, on the printer built from
    the arguments, by a run that returns and is no dry run; a dry run and a
    run that halts (on a setup error, a parse error or a test case's
    terminal error) never call it. *)
Theorem summary_iff_completed args s :
  let '(r, _, t) := RunGenerateCommand P args s in
  summaries t = if completed args r then [newPrinter args] else [].
Proof.
  pose proof (run_readings args s) as H.
  destruct (RunGenerateCommand P args s) as [[r s'] t]. by destruct H as (_ & _ & ? & _).
Qed.

(** X8.  A run that returns, is no dry run and has [--cleanup-namespaces]
    calls [DeleteNamespace] once for each server namespace, in the order
    given, all on one backend, whatever errors the deletions return; any
    other run (a dry run, a run that halts, a run without the flag) deletes
    nothing. *)
Theorem cleanup_iff_completed args s :
  let '(r, _, t) := RunGenerateCommand P args s in
  ∃ k, deleted t
       = if completed args r && CleanupNamespaces args
         then (λ ns, (k, ns)) <$> ServerNamespaces args else [].
Proof.
  pose proof (run_readings args s) as H.
  destruct (RunGenerateCommand P args s) as [[r s'] t]. by destruct H as (_ & _ & _ & ?).
Qed.

(** X9.  When the generator yields no test case, a run that is no dry run
    still looks at the destination type: an empty or a parsable one lets
    the run return, with the summary printed and nothing executed; one that
    does not parse halts the run on the parse error, right after the
    setup. *)
Theorem no_test_cases_to_run args s c s1 pre :
  DryRun args = false →
  setup P args s = (Ok c, s1, pre) →
  testCases c = [] →
  let '(r, _, t) := RunGenerateCommand P args s in
  executed t = []
  ∧ if decide (DestinationType args = "") then
      r = Ok tt ∧ ∃ cl, t = pre ++ CallPrintSummary (newPrinter args) :: cl
    else
      match ParseProbeMode P (DestinationType args) with
      | inl _ => r = Ok tt ∧ ∃ cl, t = pre ++ CallPrintSummary (newPrinter args) :: cl
      | inr e => r = Halted (Fatal e) ∧ t = pre
      end.
Proof.
  intros Hdry Hs Hnone.
  pose proof (setup_events args s) as Hpre. rewrite Hs in Hpre. simpl in Hpre.
  destruct (setup_no_results _ Hpre) as (_ & _ & _ & _ & Hex).
  destruct (RunGenerateCommand P args s) as [[r s'] t] eqn:Hrun.
  apply run_shape in Hrun. rewrite Hs, Hdry in Hrun.
  pose proof (setup_ok _ _ _ _ _ Hs) as (_ & _ & _ & _ & Hpr & _).
  destruct Hrun as (r0 & s2 & Hov & Hrun).
  assert (allocated (store s1) (testCases c)) as Hall by (rewrite Hnone; constructor).
  destruct (override_run P args (testCases c) s1 Hall) as (r0' & s2' & Hov' & _ & Hcase).
  rewrite Hov in Hov'. injection Hov' as <- <-.
  assert (r0 = Ok tt →
          executed t = [] ∧ r = Ok tt
          ∧ ∃ cl, t = pre ++ CallPrintSummary (newPrinter args) :: cl) as Hok.
  { intros ->. destruct Hrun as (rl & w & loop & Hloop & _ & Hrun).
    rewrite Hnone in Hloop. inversion Hloop; subst.
    destruct Hrun as (cl & -> & -> & Hcl & _).
    destruct (cleanup_no_results _ _ Hcl) as (_ & _ & _ & Hcx).
    rewrite Hpr. split; [|by eauto].
    rewrite !executed_app, Hex. simpl. exact Hcx. }
  destruct (decide (DestinationType args = "")) as [Hempty|Hgiven].
  - destruct Hcase as [-> _]. by destruct (Hok eq_refl) as (? & ? & ?).
  - destruct (ParseProbeMode P (DestinationType args)) as [mode|e].
    + destruct Hcase as [-> _]. by destruct (Hok eq_refl) as (? & ? & ?).
    + destruct Hcase as [-> _]. by destruct Hrun as (-> & _ & ->).
Qed.

(** X10.  A run that returns and is no dry run has announced, in its
    "testing N cases" line, exactly the number of test cases it then
    executed. *)
Theorem announced_count_is_executed_count args s :
  completed args (RunGenerateCommand P args s).1.1 = true →
  Stdout ("testing "
          +:+ pretty (Z.of_nat (length (executed (RunGenerateCommand P args s).2)))
          +:+ " cases" +:+ nl +:+ nl)
    ∈ (RunGenerateCommand P args s).2.
Proof.
  destruct (RunGenerateCommand P args s) as [[r s'] t] eqn:Hrun. simpl.
  intros Hdone. apply run_shape in Hrun.
  pose proof (setup_events args s) as Hpre.
  destruct (setup P args s) as [[[c|h] s1] pre] eqn:Hs; simpl in *;
    [|by destruct Hrun as (-> & _)].
  destruct (setup_no_results _ Hpre) as (_ & _ & _ & _ & Hex).
  unfold completed in Hdone.
  destruct (DryRun args); [by destruct r|].
  apply setup_ok in Hs as (_ & _ & _ & _ & _ & _ & _ & before & Hbefore).
  destruct Hrun as (r0 & s2 & _ & Hrun).
  destruct r0 as [[]|h]; [|by destruct Hrun as (-> & _)].
  destruct Hrun as (rl & w & loop & Hloop & _ & Hrun).
  destruct rl as [[]|h]; [|by destruct Hrun as (-> & _)].
  destruct Hrun as (cl & _ & -> & Hcl & _).
  destruct (cleanup_no_results _ _ Hcl) as (_ & _ & _ & Hcx).
  pose proof (loop_printed _ _ _ _ _ _ _ _ Hloop) as [_ Hall].
  destruct (Hall eq_refl) as [_ Hlen]. rewrite length_fmap in Hlen.
  rewrite !executed_app, Hex. simpl. rewrite Hcx, app_nil_r, Hlen, Hbefore.
  apply elem_of_app. left. apply elem_of_app. right.
  unfold testCaseListing. apply list_elem_of_further, elem_of_app. right.
  apply list_elem_of_here.
Qed.

(** X13.  In a run that returns and is no dry run, the summary comes after
    everything the test cases did and before the cleanup: before it no
    namespace is deleted, and after it nothing happens but the cleanup's
    log lines and deletions; no test case is executed or printed while
    namespaces are being deleted. *)
Theorem summary_then_cleanup args s :
  completed args (RunGenerateCommand P args s).1.1 = true →
  ∃ before k cl,
    (RunGenerateCommand P args s).2 = before ++ CallPrintSummary (newPrinter args) :: cl
    ∧ deleted before = [] ∧ summaries before = []
    ∧ Forall (cleanupEvent k) cl
    ∧ results cl = [] ∧ printed cl = [].
Proof.
  destruct (RunGenerateCommand P args s) as [[r s'] t] eqn:Hrun. simpl.
  intros Hdone. apply run_shape in Hrun.
  pose proof (setup_events args s) as Hpre.
  destruct (setup P args s) as [[[c|h] s1] pre] eqn:Hs; simpl in *;
    [|by destruct Hrun as (-> & _)].
  destruct (setup_no_results _ Hpre) as (_ & _ & Hsum & Hdel & _).
  unfold completed in Hdone.
  destruct (DryRun args); [by destruct r|].
  apply setup_ok in Hs as (_ & _ & _ & _ & Hpr & _).
  destruct Hrun as (r0 & s2 & _ & Hrun).
  destruct r0 as [[]|h]; [|by destruct Hrun as (-> & _)].
  destruct Hrun as (rl & w & loop & Hloop & _ & Hrun).
  destruct rl as [[]|h]; [|by destruct Hrun as (-> & _)].
  destruct Hrun as (cl & _ & -> & Hcl & _).
  destruct (cleanup_no_results _ _ Hcl) as (Hcr & Hcp & _).
  destruct (loop_no_closing _ _ _ (loop_events _ _ _ _ _ _ _ _ Hloop)) as [Hls Hld].
  exists (pre ++ loop), (kubernetes c), cl. rewrite Hpr, <- app_assoc.
  split; [done|]. unfold deleted, summaries in *. rewrite !omap_app, Hdel, Hsum, Hls, Hld.
  by split_and!.
Qed.

(** ** The destination-type override, lines 131 to 139 *)

Lemma sameShape_refl (h : gmap loc (ProbeConfig T)) : sameShape h h.
Proof. by intros l. Qed.

Lemma sameShape_trans (h1 h2 h3 : gmap loc (ProbeConfig T)) :
  sameShape h1 h2 → sameShape h2 h3 → sameShape h1 h3.
Proof. intros H12 H23 l. by rewrite H23, H12. Qed.

Lemma writesModesOnly_bind {A B} (m : M T A) (k : A → M T B) :
  writesModesOnly m → (∀ a, writesModesOnly (k a)) → writesModesOnly (m ≫= k).
Proof.
  intros Hm Hk s. unfold mbind, M_bind, bind.
  destruct (Hm s) as (Ht & Hw & Hs).
  destruct (m s) as [[[a|h] s1] t1]; simpl in *; [|done].
  destruct (Hk a s1) as (Ht2 & Hw2 & Hs2).
  destruct (k a s1) as [[r2 s2] t2]. simpl in *. subst.
  split; [done|]. split; [congruence|]. by eapply sameShape_trans.
Qed.

Lemma writesModesOnly_forRange {A} (body : nat → A → M T unit) l :
  (∀ i x, writesModesOnly (body i x)) → ∀ i, writesModesOnly (forRange body i l).
Proof.
  intros Hb. induction l as [|x l IH]; intros i; simpl.
  - intros s. split_and!; first [done | apply sameShape_refl].
  - apply writesModesOnly_bind; [apply Hb | intros _; apply IH].
Qed.

Lemma writesModesOnly_setMode (mode : ProbeMode T) st : writesModesOnly (setMode mode st).
Proof.
  intros s. unfold setMode, getStore, setStore, halt, mbind, M_bind, bind. simpl.
  destruct (store s !! Probe st) as [pc|] eqn:Hpc; simpl.
  - split; [done|]. split; [done|]. intros l.
    destruct (decide (l = Probe st)) as [->|Hne].
    + by rewrite lookup_insert_eq, Hpc.
    + by rewrite lookup_insert_ne.
  - split_and!; first [done | apply sameShape_refl].
Qed.

(** X11.  Whatever the arguments, the test cases and the store, and also
    when it stops half-way on a parse error or a nil [Probe], the
    destination-type override prints and calls nothing, leaves the world
    alone, allocates and frees no object, and changes no field of any
    object other than [Mode]. *)
Theorem override_writes_modes_only args tcs s :
  let '(_, s', t) := overrideDestinationType P args tcs s in
  t = []
  ∧ world s' = world s
  ∧ sameShape (store s) (store s')
  ∧ dom (store s') = dom (store s).
Proof.
  assert (writesModesOnly (overrideDestinationType P args tcs)) as H.
  { unfold overrideDestinationType. case_decide.
    - intros s0. split_and!; first [done | apply sameShape_refl].
    - apply writesModesOnly_bind.
      + intros s0. unfold orDie. destruct (ParseProbeMode P _); simpl;
          (split_and!; first [done | apply sameShape_refl]).
      + intros mode. apply writesModesOnly_forRange. intros _ tc.
        apply writesModesOnly_forRange. intros _ st. apply writesModesOnly_setMode. }
  specialize (H s). destruct (overrideDestinationType P args tcs s) as [[r s'] t].
  simpl in H. destruct H as (Ht & Hw & Hs). split_and!; try done.
  apply set_eq. intros l. rewrite !elem_of_dom, <- !(fmap_is_Some Spec). by rewrite Hs.
Qed.

(** ** Dry runs, lines 127 to 129 *)

(** X12.  A dry run reads only the tags, the server namespaces, pods,
    ports and protocols, the pod-creation timeout, the batch flag and the
    DNS flag: two dry runs whose arguments agree on these do the same,
    whatever [--mock], [--context], [--retries],
    [--perturbation-wait-seconds], [--noisy], [--ignore-loopback],
    [--destination-type] and [--cleanup-namespaces] are. *)
Theorem dry_run_reads_only args args' s :
  DryRun args = true →
  DryRun args' = true →
  sameForDryRun args args' →
  RunGenerateCommand P args s = RunGenerateCommand P args' s.
Proof.
  intros Hdry Hdry' (Hdns & Htimeout & Hbatch & Hports & Hprotos & Hnss & Hpods & Hin & Hex).
  unfold RunGenerateCommand, mbind, M_bind, bind.
  rewrite !setup_unfold, !newKubernetes_mock by (by rewrite ?Hdry, ?Hdry', orb_true_r).
  unfold generated.
  rewrite Hdry, Hdry', <- Hdns, <- Htimeout, <- Hbatch, <- Hports, <- Hprotos, <- Hnss,
    <- Hpods, <- Hin, <- Hex.
  cbv zeta.
  destruct (ValidateTags P (Include args ++ Exclude args)); [done|].
  destruct (NewDefaultResources P MockKubernetes _ _ _ _ _ _ _ (world s))
    as [[resources|e] w]; [|done].
  by destruct (GetPod P resources "z" "c").
Qed.

End More.

(** ** The properties on concrete runs *)

Section Concrete.

Import Demo.

Lemma mock_run_stays_on_mock_witness :
  Mock podIP || DryRun podIP = true
  ∧ Forall (onBackend MockKubernetes) (RunGenerateCommand demo podIP accepting).2.
Proof.
  split; [reflexivity|].
  exact (mock_run_stays_on_mock demo podIP accepting eq_refl).
Defined.

Lemma cluster_is_contacted_first_witness :
  Mock plain || DryRun plain = false
  ∧ ValidateTags demo (Include plain ++ Exclude plain) = None
  ∧ (∃ rest,
       (RunGenerateCommand demo plain accepting).2
       = CallRunVersionCommand :: CallNewKubernetesForContext (Context plain)
         :: CallServerVersion
         :: Stdout ("Kubernetes server version: " +:+ nl +:+ "{}" +:+ nl)
         :: CallNewDefaultResources (ClusterKubernetes (T:=demoTypes) "")
              (ServerNamespaces plain) (ServerPods plain) (ServerPorts plain)
              (PodCreationTimeoutSeconds plain) (BatchJobs plain)
         :: rest)
  ∧ Forall (onBackend (ClusterKubernetes (T:=demoTypes) ""))
      (RunGenerateCommand demo plain accepting).2.
Proof.
  split; [reflexivity|]. split; [reflexivity|].
  exact (cluster_is_contacted_first demo plain accepting eq_refl eq_refl).
Defined.

(** The same command against a context that cannot be reached: it halts
    before anything is created. *)
Example unreachable_cluster_halts :
  RunGenerateCommand demoBare (bareArgs [FlagContext "unreachable"]) accepting
  = (Halted (Fatal "cannot load context unreachable"), accepting,
     [CallRunVersionCommand; CallNewKubernetesForContext "unreachable"]).
Proof. vm_compute. reflexivity. Qed.

Lemma invalid_tags_halt_first_witness :
  ValidateTags demo (Include badTags ++ Exclude badTags) = Some "invalid tag"
  ∧ RunGenerateCommand demo badTags accepting
    = (Halted (Fatal "invalid tag"), accepting, [CallRunVersionCommand]).
Proof.
  split; [reflexivity|].
  exact (invalid_tags_halt_first demo badTags accepting "invalid tag" eq_refl).
Defined.

Lemma no_test_cases_to_run_witness :
  DryRun bogusMode = false
  ∧ setup demoBare bogusMode accepting
    = (Ok (bareSetup bogusMode), (setup demoBare bogusMode accepting).1.2,
       (setup demoBare bogusMode accepting).2)
  ∧ testCases (bareSetup bogusMode) = []
  ∧ let '(r, _, t) := RunGenerateCommand demoBare bogusMode accepting in
    executed t = []
    ∧ if decide (DestinationType bogusMode = "") then
        r = Ok tt
        ∧ ∃ cl, t = (setup demoBare bogusMode accepting).2
                    ++ CallPrintSummary (newPrinter bogusMode) :: cl
      else
        match ParseProbeMode demoBare (DestinationType bogusMode) with
        | inl _ =>
            r = Ok tt
            ∧ ∃ cl, t = (setup demoBare bogusMode accepting).2
                        ++ CallPrintSummary (newPrinter bogusMode) :: cl
        | inr e => r = Halted (Fatal e) ∧ t = (setup demoBare bogusMode accepting).2
        end.
Proof.
  assert (setup demoBare bogusMode accepting
          = (Ok (bareSetup bogusMode), (setup demoBare bogusMode accepting).1.2,
             (setup demoBare bogusMode accepting).2)) as Hs.
  { vm_compute. reflexivity. }
  split; [reflexivity|]. split; [exact Hs|]. split; [reflexivity|].
  exact (no_test_cases_to_run demoBare bogusMode accepting _ _ _ eq_refl Hs eq_refl).
Defined.

Lemma announced_count_is_executed_count_witness :
  completed podIP (RunGenerateCommand demo podIP accepting).1.1 = true
  ∧ Stdout ("testing "
            +:+ pretty (Z.of_nat (length (executed (RunGenerateCommand demo podIP accepting).2)))
            +:+ " cases" +:+ nl +:+ nl)
      ∈ (RunGenerateCommand demo podIP accepting).2.
Proof.
  assert (completed podIP (RunGenerateCommand demo podIP accepting).1.1 = true) as Hdone.
  { vm_compute. reflexivity. }
  split; [exact Hdone|].
  exact (announced_count_is_executed_count demo podIP accepting Hdone).
Defined.

Lemma summary_then_cleanup_witness :
  completed podIP (RunGenerateCommand demo podIP accepting).1.1 = true
  ∧ ∃ before k cl,
      (RunGenerateCommand demo podIP accepting).2
      = before ++ CallPrintSummary (newPrinter podIP) :: cl
      ∧ deleted before = [] ∧ summaries before = []
      ∧ Forall (cleanupEvent k) cl
      ∧ results cl = [] ∧ printed cl = [].
Proof.
  assert (completed podIP (RunGenerateCommand demo podIP accepting).1.1 = true) as Hdone.
  { vm_compute. reflexivity. }
  split; [exact Hdone|].
  exact (summary_then_cleanup demo podIP accepting Hdone).
Defined.

Lemma dry_run_reads_only_witness :
  DryRun dry = true
  ∧ DryRun dryOther = true
  ∧ sameForDryRun dry dryOther
  ∧ RunGenerateCommand demo dry accepting = RunGenerateCommand demo dryOther accepting.
Proof.
  assert (sameForDryRun dry dryOther) as Hsame.
  { unfold sameForDryRun. by split_and!. }
  split; [reflexivity|]. split; [reflexivity|]. split; [exact Hsame|].
  exact (dry_run_reads_only demo dry dryOther accepting eq_refl eq_refl Hsame).
Defined.

End Concrete.

End CliMore.
